(** * ScreenQnA: question extraction, answer formatting, region selection
      and the three front ends (screen_qna.py, screen_qna_gui.py,
      screen_qna_snap.py), embedded as executable definitions.

    A Python [str] is a sequence of Unicode code points: it is modelled as a
    list of integers.  Regular expressions are modelled pattern by pattern,
    as the backtracking matcher runs them. *)

From Stdlib Require Import ZArith String Ascii.
From stdpp Require Import base list gmap strings.

Abbreviation text := (list Z).

(** ASCII literals of the sources, as code points. *)
Definition str (s : string) : text :=
  (λ a, Z.of_nat (nat_of_ascii a)) <$> list_ascii_of_string s.

(** ** Characters *)

Module Char.

Definition qmark : Z := 63.            (* '?' *)
Definition arabic_qmark : Z := 0x61F.  (* U+061F, the Arabic question mark *)
Definition percent : Z := 37.          (* '%' *)
Definition arabic_percent : Z := 0x66A. (* U+066A *)
Definition newline : Z := 10.
Definition space : Z := 32.

(** [[A-Z]] *)
Definition is_upper (c : Z) : bool := (65 <=? c)%Z && (c <=? 90)%Z.

(** What [str.strip()] removes and what [\s] matches in a [str] pattern:
    the characters for which [str.isspace()] holds. *)
Definition is_space (c : Z) : bool :=
  ((9 <=? c)%Z && (c <=? 13)%Z) || ((28 <=? c)%Z && (c <=? 32)%Z)
  || (c =? 0x85)%Z || (c =? 0xA0)%Z || (c =? 0x1680)%Z
  || ((0x2000 <=? c)%Z && (c <=? 0x200A)%Z)
  || (c =? 0x2028)%Z || (c =? 0x2029)%Z || (c =? 0x202F)%Z
  || (c =? 0x205F)%Z || (c =? 0x3000)%Z.

(** U+0600 <= ch <= U+06FF, the Arabic block *)
Definition in_arabic_block (ch : Z) : bool := (0x600 <=? ch)%Z && (ch <=? 0x6FF)%Z.

(** [٠-٩], U+0660 to U+0669 *)
Definition is_arabic_indic_digit (c : Z) : bool := (0x660 <=? c)%Z && (c <=? 0x669)%Z.

(** [[%٪]] *)
Definition is_percent (c : Z) : bool := (c =? percent)%Z || (c =? arabic_percent)%Z.

End Char.

(** ** [str.strip()] *)

Fixpoint lstrip (s : text) : text :=
  match s with
  | c :: s' => if Char.is_space c then lstrip s' else s
  | [] => []
  end.

Definition rstrip (s : text) : text := rev (lstrip (rev s)).

Definition strip (s : text) : text := rstrip (lstrip s).

(** ** The regular expressions of the sources *)

Module Re.

(** [[^T]{n,}T] and [[^T]{n,}?T] at the start of [s], for a terminator
    [T] and a least count [n]: the matched text.  A character of the run
    is never the terminator, so the greedy and the lazy quantifier stop
    at the same place, the first [T]: the lazy one steps over one more
    character whenever [T] is not next, the greedy one runs to the first
    [T] and could only give back characters that are not [T]. *)
Fixpoint run_until (term : Z) (need : nat) (s : text) : option text :=
  match s with
  | [] => None
  | c :: s' =>
      if decide (c = term)
      then match need with O => Some [c] | S _ => None end
      else cons c <$> run_until term (pred need) s'
  end.

(** [re.search]: the match at the leftmost start where the pattern
    matches. *)
Fixpoint search (pat : text → option text) (s : text) : option text :=
  match pat s with
  | Some m => Some m
  | None => match s with
            | [] => None
            | _ :: s' => search pat s'
            end
  end.

(** [re.findall] for a pattern that never matches the empty string:
    matches are looked for from left to right, and the scan resumes at
    the end of each match.  [skip] counts the characters of the last
    match still to be stepped over. *)
Fixpoint findall_from (pat : text → option text) (skip : nat) (s : text)
  : list text :=
  match s with
  | [] => []
  | _ :: s' =>
      match skip with
      | S k => findall_from pat k s'
      | O => match pat s with
             | Some m => m :: findall_from pat (pred (length m)) s'
             | None => findall_from pat 0 s'
             end
      end
  end.

Definition findall (pat : text → option text) (s : text) : list text :=
  findall_from pat 0 s.

(** [r"([A-Z][^?]{3,}?\?)"] at the start of [s] (screen_qna.py, line 82);
    the one group is the whole match.  The flags [re.MULTILINE] and
    [re.DOTALL] of line 83 bear on anchors and dots, and the pattern has
    neither. *)
Definition latin_question (s : text) : option text :=
  match s with
  | c :: s' => if Char.is_upper c then cons c <$> run_until Char.qmark 3 s' else None
  | [] => None
  end.

(** [r"[^؟]{2,}؟"] (screen_qna_gui.py, line 189) *)
Definition arabic_run (s : text) : option text := run_until Char.arabic_qmark 2 s.

(** [r"[^?]{2,}\?"] (screen_qna_gui.py, line 192) *)
Definition latin_run (s : text) : option text := run_until Char.qmark 2 s.

End Re.

(** ** screen_qna.py: [extract_questions] *)

(** [list(dict.fromkeys(keys))]: a dict keeps its keys in the order of their
    first insertion, and inserting a key it already has changes nothing. *)
Definition fromkeys (keys : list text) : list text :=
  fold_left (λ d k, if decide (k ∈ d) then d else d ++ [k]) keys [].

Definition extract_questions (txt : text) : list text :=
  let questions := Re.findall Re.latin_question txt in
  fromkeys (strip <$> questions).

(** ** screen_qna_gui.py: [extract_question] (inside [run_ocr_and_answer]) *)

Definition extract_question (txt : text) : text :=
  match Re.search Re.arabic_run txt with
  | Some m_ar => strip m_ar
  | None =>
      match Re.search Re.latin_run txt with
      | Some m_en => strip m_en
      | None => strip txt
      end
  end.

(** ** screen_qna_gui.py: the answer formatting of [run_ocr_and_answer] *)

Definition arabic_prefix : text :=
  [0x627; 0x644; 0x625; 0x62C; 0x627; 0x628; 0x629; 58; 32]%Z.

Definition latin_prefix : text := str "Answer: ".

Definition is_arabic (txt : text) : bool := existsb Char.in_arabic_block txt.

(** [.] without [re.DOTALL] matches every character but the line feed:
    the second group, a starred dot, takes the rest of the line. *)
Fixpoint rest_of_line (s : text) : text :=
  match s with
  | c :: s' => if decide (c = Char.newline) then [] else c :: rest_of_line s'
  | [] => []
  end.

(** [\s+] and the second group: all the white space there is, at least one character of it,
    then the second group, which matches whatever follows (nothing too).
    The result is the second group. *)
Definition spaces_then_line (s : text) : option text :=
  match s with
  | c :: s' => if Char.is_space c then Some (rest_of_line (lstrip s')) else None
  | [] => None
  end.

(** [[%٪]?\s+] and the second group: the percent sign is taken when it is there and given
    back when the rest does not match after it.  The result is what the
    optional item matched, and the second group. *)
Definition percent_then (s : text) : option (text * text) :=
  match s with
  | c :: s' =>
      if Char.is_percent c
      then match spaces_then_line s' with
           | Some body => Some ([c], body)
           | None => (λ body, ([], body)) <$> spaces_then_line s
           end
      else (λ body, ([], body)) <$> spaces_then_line s
  | [] => None
  end.

Section Formatter.

(** [\d] in a [str] pattern matches the decimal digits of every script
    (Unicode category Nd); the table belongs to the interpreter. *)
Variable unicode_decimal : Z → bool.

(** [[\d٠-٩]] *)
Definition is_digit (c : Z) : bool :=
  unicode_decimal c || Char.is_arabic_indic_digit c.

(** [[\d٠-٩]+[%٪]?\s+] and the second group: as many digits as there are, one fewer
    at a time when the rest does not match, but one at least.  [tok] holds
    the digits taken so far, the last one first.  The result is the two
    groups. *)
Fixpoint digits_then (tok : text) (s : text) : option (text * text) :=
  match s with
  | c :: s' =>
      if is_digit c
      then match digits_then (c :: tok) s' with
           | Some groups => Some groups
           | None =>
               (λ '(pct, body), (rev (c :: tok) ++ pct, body)) <$> percent_then s'
           end
      else None
  | [] => None
  end.

(** [re.match] of the pattern of line 203 on [answer], and [m.groups()] *)
Definition numeric_answer (answer : text) : option (text * text) :=
  digits_then [] answer.

(** Lines 199 to 208 of screen_qna_gui.py. *)
Definition format_answer (txt answer : text) : text :=
  let prefix := if is_arabic txt then arabic_prefix else latin_prefix in
  let '(num_part, ans_main) :=
    match numeric_answer answer with
    | Some groups => groups
    | None => ([], answer)
    end in
  strip (num_part ++ [Char.space] ++ prefix ++ ans_main).

End Formatter.

(** ** The region selection overlay (screen_qna_gui.py and
       screen_qna_snap.py have the same handlers) *)

Inductive event :=
| ButtonPress (x_root y_root : Z)
| Motion (x_root y_root : Z)
| ButtonRelease (x_root y_root : Z)
| Escape.

Abbreviation box := (Z * Z * Z * Z)%type.

(** [sel] is the dict the handlers share, [rect] the rectangle drawn on
    the canvas ([None] while [rect_id] is [None]). *)
Record overlay := {
  sel : gmap string Z;
  rect : option box;
  destroyed : bool
}.

Definition on_press (o : overlay) (x y : Z) : overlay :=
  {| sel := <["y1" := y]> (<["x1" := x]> (sel o));
     rect := Some (x, y, x, y);
     destroyed := destroyed o |}.

Definition on_drag (o : overlay) (x y : Z) : overlay :=
  match rect o, sel o !! "x1", sel o !! "y1" with
  | Some _, Some x1, Some y1 =>
      {| sel := sel o; rect := Some (x1, y1, x, y); destroyed := destroyed o |}
  | _, _, _ => o
  end.

Definition on_release (o : overlay) (x y : Z) : overlay :=
  {| sel := <["y2" := y]> (<["x2" := x]> (sel o));
     rect := rect o;
     destroyed := true |}.

Definition on_escape (o : overlay) : overlay :=
  {| sel := ∅; rect := rect o; destroyed := true |}.

Definition handle (o : overlay) (e : event) : overlay :=
  match e with
  | ButtonPress x y => on_press o x y
  | Motion x y => on_drag o x y
  | ButtonRelease x y => on_release o x y
  | Escape => on_escape o
  end.

(** [parent.wait_window(overlay)] / [overlay.mainloop()]: events are
    dispatched until the overlay is destroyed.  [None]: the events ran out
    and the call is still waiting. *)
Fixpoint wait_window (o : overlay) (events : list event) : option overlay :=
  if destroyed o then Some o
  else match events with
       | [] => None
       | e :: events' => wait_window (handle o e) events'
       end.

Definition select_region (events : list event) : option (option box) :=
  o ← wait_window {| sel := ∅; rect := None; destroyed := false |} events;
  Some match sel o !! "x1", sel o !! "y1", sel o !! "x2", sel o !! "y2" with
       | Some x1, Some y1, Some x2, Some y2 =>
           Some (Z.min x1 x2, Z.min y1 y2, Z.max x1 x2, Z.max y1 y2)
       | _, _, _, _ => None
       end.

(** ** The answer service *)

(** What the chat completion call comes back with: the content of the first
    choice, or an exception. *)
Inductive response :=
| Content (content : text)
| AuthenticationError (msg : text)
| ServiceError (msg : text).

(** The process environment and the remote service; the service may answer
    the same question differently from one request to the next, so its
    reply depends on how many requests came before. *)
Record environment := {
  OPENAI_API_KEY : option text;
  service : nat → text → response
}.

Inductive outcome :=
| Returned (reply : text)
| Raised (msg : text).

(** [not api_key]: the variable is unset or empty. *)
Definition key_missing (e : environment) : bool :=
  match OPENAI_API_KEY e with
  | Some (_ :: _) => false
  | _ => true
  end.

(** [client.chat.completions.create(...)]: the request goes out and the
    service replies.  [requests] lists the questions that went out to the
    service so far. *)
Definition create (e : environment) (question : text) (requests : list text)
  : response * list text :=
  (service e (length requests) question, requests ++ [question]).

(** ** screen_qna.py: the polling loop *)

Module Cli.

Definition not_set : text := str "OPENAI_API_KEY environment variable not set.".

Definition query_openai (e : environment) (question : text) (requests : list text)
  : outcome * list text :=
  if key_missing e then (Raised not_set, requests)
  else match create e question requests with
       | (Content c, rq) => (Returned (strip c), rq)
       | (AuthenticationError msg, rq) | (ServiceError msg, rq) => (Raised msg, rq)
       end.

Inductive line :=
| QuestionDetected (q : text)
| AnswerPrinted (answer : text)
| QueryFailed (msg : text)
| Exiting.

(** What [print] writes for each line (without the line feed [print] adds). *)
Definition render (l : line) : text :=
  match l with
  | QuestionDetected q => [Char.newline] ++ str "[Q] Question detected: " ++ q ++ [Char.newline]
  | AnswerPrinted answer => str "[A] Answer:" ++ [Char.newline] ++ answer ++ [Char.newline]
  | QueryFailed msg => str "Error while querying OpenAI: " ++ msg ++ [Char.newline]
  | Exiting => [Char.newline] ++ str "Exiting" ++ [0x2026%Z]
  end.

Record state := {
  seen : gset text;
  requests : list text;
  stdout : list line
}.

(** The body of [for q in extract_questions(text)] (lines 133 to 141). *)
Definition for_body (e : environment) (st : state) (q : text) : state :=
  if decide (q ∈ seen st) then st
  else match query_openai e q (requests st) with
       | (Returned answer, rq) =>
           {| seen := {[q]} ∪ seen st;
              requests := rq;
              stdout := stdout st ++ [QuestionDetected q; AnswerPrinted answer] |}
       | (Raised msg, rq) =>
           {| seen := seen st;
              requests := rq;
              stdout := stdout st ++ [QuestionDetected q; QueryFailed msg] |}
       end.

(** One turn of [while True], from the text OCR gave. *)
Definition cycle (e : environment) (st : state) (txt : text) : state :=
  fold_left (for_body e) (extract_questions txt) st.

(** What a turn of the loop starts from: the text read off the screen,
    a [KeyboardInterrupt], or an exception of the capture or of OCR (which
    nothing catches). *)
Inductive frame :=
| Screen (ocr : text)
| Interrupt
| CaptureError (msg : text).

(** How the run stands when the frames given are used up: still polling,
    ended by [--once] or by an interrupt, or dead of an uncaught
    exception. *)
Inductive status :=
| Polling
| Ended
| Crashed (msg : text).

Fixpoint main_loop (e : environment) (once : bool) (frames : list frame) (st : state)
  : status * state :=
  match frames with
  | [] => (Polling, st)
  | Screen txt :: frames' =>
      let st' := cycle e st txt in
      if once then (Ended, st') else main_loop e once frames' st'
  | Interrupt :: _ =>
      (Ended, {| seen := seen st; requests := requests st; stdout := stdout st ++ [Exiting] |})
  | CaptureError msg :: _ => (Crashed msg, st)
  end.

Definition main (e : environment) (once : bool) (frames : list frame) : status * state :=
  main_loop e once frames {| seen := ∅; requests := []; stdout := [] |}.

End Cli.

(** ** screen_qna_gui.py: [run_ocr_and_answer] *)

Module Gui.

Definition not_set : text := str "OPENAI_API_KEY environment variable not set.".

Definition authentication_failed : text :=
  str "OpenAI authentication failed. Please verify that your OPENAI_API_KEY is correct and active.".

(** The request of the GUI carries a system instruction before the user
    message and the temperature 0.2, where the other two clients send the
    user message alone at 0.7; these are constants of each call.  A
    request is logged by its user message, and the service of an
    environment stands for the service as the client at hand addresses
    it. *)
Definition query_openai (e : environment) (prompt : text) (requests : list text)
  : outcome * list text :=
  if key_missing e then (Raised not_set, requests)
  else match create e prompt requests with
       | (Content c, rq) => (Returned (strip c), rq)
       | (AuthenticationError _, rq) => (Raised authentication_failed, rq)
       | (ServiceError msg, rq) => (Raised msg, rq)
       end.

(** What the worker leaves on the screen: the formatted answer in the text
    box and on the clipboard with the raw answer in a dialog, or an error
    dialog. *)
Inductive shown :=
| Answered (formatted answer : text)
| Failed (msg : text).

(** From the text OCR gave (line 185) to the dialogs. *)
Definition run_ocr_and_answer (unicode_decimal : Z → bool) (e : environment)
    (txt : text) (requests : list text) : shown * list text :=
  let question_only := extract_question txt in
  match query_openai e question_only requests with
  | (Returned answer, rq) => (Answered (format_answer unicode_decimal txt answer) answer, rq)
  | (Raised msg, rq) => (Failed msg, rq)
  end.

End Gui.

(** ** screen_qna_snap.py: [main] *)

Module Snap.

Definition not_set : text := str "OPENAI_API_KEY env var not set".

Definition ask_ai (e : environment) (question : text) (requests : list text)
  : outcome * list text :=
  if key_missing e then (Raised not_set, requests)
  else match create e question requests with
       | (Content c, rq) => (Returned (strip c), rq)
       | (AuthenticationError msg, rq) | (ServiceError msg, rq) => (Raised msg, rq)
       end.

Inductive line :=
| SelectionCancelled
| NoTextDetected
| OcrText (txt : text)
| Dots
| AnswerPrinted (answer : text)
| ErrorPrinted (msg : text).

Record state := {
  requests : list text;
  stdout : list line
}.

(** One turn of the loop: the pointer events on the overlay, what OCR reads
    in the selected box, and the line typed at the prompt. *)
Record attempt := {
  events : list event;
  ocr : text;
  choice : text
}.

Definition say (st : state) (lines : list line) : state :=
  {| requests := requests st; stdout := stdout st ++ lines |}.

(** Lines 134 to 154, from the text OCR gave. *)
Definition answer_selection (e : environment) (show_text : bool) (raw : text) (st : state)
  : state :=
  let txt := strip raw in
  match txt with
  | [] => say st [NoTextDetected]
  | _ :: _ =>
      let st := if show_text then say st [OcrText txt] else st in
      match ask_ai e txt (requests st) with
      | (Returned answer, rq) =>
          {| requests := rq; stdout := stdout st ++ [Dots; AnswerPrinted answer] |}
      | (Raised msg, rq) =>
          {| requests := rq; stdout := stdout st ++ [ErrorPrinted msg] |}
      end
  end.

(** The [while True] of [main]; a selection that never ends leaves the
    run waiting where it is. *)
Fixpoint main_loop (e : environment) (show_text : bool) (attempts : list attempt)
    (st : state) : state :=
  match attempts with
  | [] => st
  | a :: attempts' =>
      match select_region (events a) with
      | None => st
      | Some None => say st [SelectionCancelled]
      | Some (Some _) =>
          let st' := answer_selection e show_text (ocr a) st in
          if decide (strip (choice a) = str "1")
          then main_loop e show_text attempts' st'
          else st'
      end
  end.

Definition main (e : environment) (show_text : bool) (attempts : list attempt) : state :=
  main_loop e show_text attempts {| requests := []; stdout := [] |}.

End Snap.

(** ** The vocabulary of the properties *)

(** A well-formed Latin question sentence: a run of at least four
    characters without a question mark that begins with an uppercase Latin
    letter, and the question mark after it. *)
Definition well_formed (q : text) : bool :=
  let run := removelast q in
  bool_decide (last q = Some Char.qmark)
  && bool_decide (4 ≤ length run)
  && bool_decide (Char.qmark ∉ run)
  && match head run with Some c => Char.is_upper c | None => false end.

(** A well-formed sentence begins at the start of [s]. *)
Definition starts_sentence (s : text) : bool :=
  existsb (λ n, well_formed (take n s)) (seq 0 (S (length s))).

(** No well-formed sentence begins at a position of [sep], when [rest]
    follows it. *)
Fixpoint no_sentence_starts (sep rest : text) : bool :=
  match sep with
  | [] => true
  | _ :: sep' => negb (starts_sentence (sep ++ rest)) && no_sentence_starts sep' rest
  end.

(** A text made of sentences, each with the text that precedes it, and of
    the text after the last one. *)
Fixpoint weave (parts : list (text * text)) (tail : text) : text :=
  match parts with
  | [] => tail
  | (sep, q) :: parts' => sep ++ q ++ weave parts' tail
  end.

(** The sentences are well formed, and outside them no well-formed
    sentence begins. *)
Fixpoint laid_out (parts : list (text * text)) (tail : text) : bool :=
  match parts with
  | [] => no_sentence_starts tail []
  | (sep, q) :: parts' =>
      no_sentence_starts sep (q ++ weave parts' tail)
      && well_formed q
      && laid_out parts' tail
  end.

(** Each string at its first occurrence only: a string is kept when it did
    not occur [earlier]. *)
Fixpoint first_occurrences (earlier : list text) (l : list text) : list text :=
  match l with
  | [] => []
  | q :: l' =>
      (if decide (q ∈ earlier) then [] else [q]) ++ first_occurrences (q :: earlier) l'
  end.

(** [m] is a run of at least two characters without [term], and [term]
    after it. *)
Definition question_run (term : Z) (m : text) : Prop :=
  ∃ run, m = run ++ [term] ∧ 2 ≤ length run ∧ term ∉ run.

(** [m] occurs in [txt] at offset [n]. *)
Definition occurs_at (n : nat) (m txt : text) : Prop :=
  ∃ pre post, txt = pre ++ m ++ post ∧ length pre = n.

Definition has_run (term : Z) (txt : text) : Prop :=
  ∃ n m, occurs_at n m txt ∧ question_run term m.

(** [m] is the first such run of [txt]: none begins before it. *)
Definition first_run (term : Z) (txt m : text) : Prop :=
  ∃ n, occurs_at n m txt ∧ question_run term m
       ∧ ∀ n' m', occurs_at n' m' txt → question_run term m' → n ≤ n'.

(** From [st] to [st'] nothing was sent for [q] and [q] was not announced;
    [q] is in the set of seen questions at the end. *)
Definition quiet_for (q : text) (st st' : Cli.state) : Prop :=
  q ∈ Cli.seen st'
  ∧ ∃ rq out, Cli.requests st' = Cli.requests st ++ rq
              ∧ Cli.stdout st' = Cli.stdout st ++ out
              ∧ (q ∉ rq) ∧ (Cli.QuestionDetected q ∉ out).

(** The prefix of the formatted answer, for the OCR text [txt]. *)
Definition prefix_for (txt : text) : text :=
  if is_arabic txt then arabic_prefix else latin_prefix.

(** [answer] begins with a numeric token and white space: [tok] is one or
    more digits, [pct] at most one percent sign of either script, [ws] one
    or more characters of white space, and [rest] is what follows. *)
Definition numeric_lead (unicode_decimal : Z → bool) (answer tok pct ws rest : text) : Prop :=
  answer = tok ++ pct ++ ws ++ rest
  ∧ tok ≠ [] ∧ forallb (is_digit unicode_decimal) tok = true
  ∧ (pct = [] ∨ pct = [Char.percent] ∨ pct = [Char.arabic_percent])
  ∧ ws ≠ [] ∧ forallb Char.is_space ws = true.

(** A table of decimal digits with the ASCII digits only, to run the
    formatter on examples. *)
Definition ascii_decimal (c : Z) : bool := (48 <=? c)%Z && (c <=? 57)%Z.

(** ** screen_qna_gui.py: the client options, the worker and its caller *)

Module GuiWindow.

(** [client_kwargs] of [query_openai] (lines 63 to 69): the key, and the
    organization and project identifiers when the variables are set and
    not empty. *)
Definition client_kwargs (api_key : text) (org_id project_id : option text)
  : gmap string text :=
  let kw := {["api_key" := api_key]} in
  let kw := match org_id with
            | Some (c :: o) => <["organization" := c :: o]> kw
            | _ => kw
            end in
  match project_id with
  | Some (c :: p) => <["project" := c :: p]> kw
  | _ => kw
  end.

(** What the worker schedules on the UI thread, in the order of its
    calls. *)
Inductive ui_action :=
| ButtonConfig (enabled : bool)
| TextDelete
| TextInsert (s : text)
| ClipboardClear
| ClipboardAppend (s : text)
| ShowInfo (title message : text)
| ShowError (title message : text).

(** [run_ocr_and_answer] whole (lines 174 to 218).  [ocr] is what
    [ImageGrab.grab] and [image_to_string] come to: the text, or the
    exception one of them raised; [Gui.run_ocr_and_answer] is the part
    from the text on. *)
Definition run_ocr_and_answer (unicode_decimal : Z → bool) (e : environment)
    (ocr : outcome) (requests : list text) : list ui_action * list text :=
  let start := [ButtonConfig false; TextDelete;
                TextInsert (str "Running OCR..." ++ [Char.newline])] in
  let finally := [ButtonConfig true] in
  match ocr with
  | Raised msg => (start ++ [ShowError (str "Error") msg] ++ finally, requests)
  | Returned txt =>
      let result :=
        TextInsert (str "OCR result:" ++ [Char.newline] ++ txt
                    ++ [Char.newline; Char.newline] ++ str "Querying OpenAI..."
                    ++ [Char.newline]) in
      match Gui.run_ocr_and_answer unicode_decimal e txt requests with
      | (Gui.Answered formatted answer, rq) =>
          (start ++ [result; TextDelete;
                     TextInsert (str "....." ++ [Char.newline] ++ formatted);
                     ClipboardClear; ClipboardAppend formatted;
                     ShowInfo (str "AI Answer") answer] ++ finally, rq)
      | (Gui.Failed msg, rq) =>
          (start ++ [result; ShowError (str "Error") msg] ++ finally, rq)
      end
  end.

(** [on_select_and_answer] of [main] (lines 233 to 243): nothing is done
    without a box; [screen] is what grabbing a box and reading it come to.
    [None]: the selection has not ended. *)
Definition on_select_and_answer (unicode_decimal : Z → bool) (e : environment)
    (screen : box → outcome) (events : list event) (requests : list text)
  : option (list ui_action * list text) :=
  match select_region events with
  | None => None
  | Some None => Some ([], requests)
  | Some (Some bbox) => Some (run_ocr_and_answer unicode_decimal e (screen bbox) requests)
  end.

End GuiWindow.

(** ** The search for Tesseract when the three scripts are loaded *)

Module Tesseract.

Definition bases : list text :=
  [str "C:\\Program Files\\Tesseract-OCR"; str "C:\\Program Files (x86)\\Tesseract-OCR"].

(** [os.path.join(_base, "tesseract.exe")], on Windows. *)
Definition candidate (base : text) : text := base ++ str "\tesseract.exe".

(** The [for] loop with its [break]; [cmd] is the command [pytesseract]
    is set to use. *)
Fixpoint first_existing (path_exists : text → bool) (bases : list text) (cmd : text)
  : text :=
  match bases with
  | [] => cmd
  | base :: bases' =>
      if path_exists (candidate base) then candidate base
      else first_existing path_exists bases' cmd
  end.

(** [nt]: [os.name == "nt"]; [which]: [shutil.which("tesseract")]. *)
Definition detect (nt : bool) (which : option text) (path_exists : text → bool)
    (cmd : text) : text :=
  match nt, which with
  | true, None => first_existing path_exists bases cmd
  | _, _ => cmd
  end.

End Tesseract.

(** ** More vocabulary *)

(** The events that leave the overlay open. *)
Definition pending (e : event) : bool :=
  match e with
  | ButtonPress _ _ | Motion _ _ => true
  | ButtonRelease _ _ | Escape => false
  end.

(** Where the button was last pressed. *)
Fixpoint last_press (events : list event) : option (Z * Z) :=
  match events with
  | [] => None
  | ButtonPress x y :: events' =>
      match last_press events' with
      | Some p => Some p
      | None => Some (x, y)
      end
  | _ :: events' => last_press events'
  end.

(** The overlay is open, the press point held is [p], and no release
    point is held. *)
Definition holds (o : overlay) (p : option (Z * Z)) : Prop :=
  destroyed o = false
  ∧ sel o !! "x1" = fst <$> p ∧ sel o !! "y1" = snd <$> p
  ∧ sel o !! "x2" = None ∧ sel o !! "y2" = None.

Definition is_button_config (a : GuiWindow.ui_action) : bool :=
  match a with GuiWindow.ButtonConfig _ => true | _ => false end.

Definition is_dialog (a : GuiWindow.ui_action) : bool :=
  match a with GuiWindow.ShowInfo _ _ | GuiWindow.ShowError _ _ => true | _ => false end.

Definition is_clipboard (a : GuiWindow.ui_action) : bool :=
  match a with GuiWindow.ClipboardClear | GuiWindow.ClipboardAppend _ => true | _ => false end.

(** The service answers every request. *)
Definition reliable (e : environment) : Prop :=
  key_missing e = false ∧ ∀ n q, ∃ c, service e n q = Content c.

(** An environment whose service answers every question with the same
    reply, to run the loops on examples. *)
Definition steady (reply : text) : environment :=
  {| OPENAI_API_KEY := Some (str "sk-1"); service := λ _ _, Content reply |}.

(** [q] went out to the service, and it was announced on the standard
    output with its answer printed next. *)
Definition answered_in (st : Cli.state) (q : text) : Prop :=
  q ∈ Cli.requests st
  ∧ ∃ before answer after,
      Cli.stdout st = before ++ [Cli.QuestionDetected q; Cli.AnswerPrinted answer] ++ after.

(** The questions sent are the questions seen, each sent once. *)
Definition sent_once (st : Cli.state) : Prop :=
  NoDup (Cli.requests st) ∧ ∀ q, q ∈ Cli.requests st ↔ q ∈ Cli.seen st.

(** Every request of the snap tool so far is a non-empty, trimmed text. *)
Definition snap_requests_clean (st : Snap.state) : Prop :=
  ∀ q, q ∈ Snap.requests st → q ≠ [] ∧ strip q = q.

(** The questions announced on the standard output, in order. *)
Definition announced (out : list Cli.line) : list text :=
  omap (λ l, match l with Cli.QuestionDetected q => Some q | _ => None end) out.

(** ** White space and [strip] *)

Lemma lstrip_cons_keep c s : Char.is_space c = false → lstrip (c :: s) = c :: s.
Proof. intros H. simpl. by rewrite H. Qed.

Lemma lstrip_nil_iff s : lstrip s = [] ↔ forallb Char.is_space s = true.
Proof.
  induction s as [|c s IH]; simpl; [done|].
  destruct (Char.is_space c); simpl; [apply IH|]. split; discriminate.
Qed.

Lemma lstrip_suffix s : ∃ ws, s = ws ++ lstrip s ∧ forallb Char.is_space ws = true.
Proof.
  induction s as [|c s (ws & Hs & Hws)]; simpl.
  - by exists [].
  - destruct (Char.is_space c) eqn:Hc.
    + exists (c :: ws). simpl. rewrite Hc, Hws. split; [by f_equal|done].
    + by exists [].
Qed.

Lemma lstrip_head s c s' : lstrip s = c :: s' → Char.is_space c = false.
Proof.
  induction s as [|d s IH]; simpl; [done|].
  destruct (Char.is_space d) eqn:Hd; [done|]. by intros [= -> _].
Qed.

Lemma rstrip_snoc_keep s c : Char.is_space c = false → rstrip (s ++ [c]) = s ++ [c].
Proof.
  intros H. unfold rstrip. rewrite rev_app_distr. simpl. rewrite H.
  change (c :: rev s) with ([c] ++ rev s). by rewrite rev_app_distr, rev_involutive.
Qed.

Lemma rstrip_nil_iff s : rstrip s = [] ↔ forallb Char.is_space s = true.
Proof.
  unfold rstrip. rewrite !forallb_forall. split.
  - intros H%(f_equal (@rev Z)). rewrite rev_involutive in H. simpl in H.
    apply lstrip_nil_iff in H. rewrite forallb_forall in H.
    intros c Hc. apply H. by apply in_rev in Hc.
  - intros H. replace (lstrip (rev s)) with (@nil Z); [done|].
    symmetry. apply lstrip_nil_iff, forallb_forall.
    intros c Hc. apply H. by apply in_rev.
Qed.

Lemma strip_nil_iff s : strip s = [] ↔ forallb Char.is_space s = true.
Proof.
  unfold strip. rewrite rstrip_nil_iff. destruct (lstrip_suffix s) as (ws & Hs & Hws).
  split.
  - intros H. rewrite Hs, forallb_app, Hws. by simpl.
  - intros H. rewrite Hs, forallb_app in H. by apply andb_prop in H as [_ ?].
Qed.

(** A text that neither begins nor ends with white space is its own
    [strip]. *)
Lemma strip_id c body d :
  Char.is_space c = false → Char.is_space d = false →
  strip (c :: body ++ [d]) = c :: body ++ [d].
Proof.
  intros Hc Hd. unfold strip. rewrite lstrip_cons_keep by done.
  by apply (rstrip_snoc_keep (c :: body)).
Qed.

Lemma upper_not_space c : Char.is_upper c = true → Char.is_space c = false.
Proof. unfold Char.is_upper, Char.is_space. lia. Qed.

Lemma upper_not_qmark c : Char.is_upper c = true → c ≠ Char.qmark.
Proof. unfold Char.is_upper, Char.qmark. lia. Qed.

(** ** Runs up to a terminator *)

Lemma run_until_Some term need s m :
  Re.run_until term need s = Some m →
  ∃ run rest, s = run ++ term :: rest ∧ m = run ++ [term]
              ∧ (term ∉ run) ∧ need ≤ length run.
Proof.
  revert need m. induction s as [|c s IH]; intros need m; simpl; [done|].
  destruct (decide (c = term)) as [->|Hc].
  - destruct need; [|done]. intros [= <-].
    exists [], s. repeat split; [apply not_elem_of_nil|simpl; lia].
  - destruct (Re.run_until term (pred need) s) as [m'|] eqn:Hm; [|done].
    intros [= <-]. destruct (IH _ _ Hm) as (run & rest & -> & -> & Hrun & Hlen).
    exists (c :: run), rest. repeat split.
    + rewrite not_elem_of_cons. done.
    + simpl. lia.
Qed.

Lemma run_until_app term need run rest :
  term ∉ run → need ≤ length run →
  Re.run_until term need (run ++ term :: rest) = Some (run ++ [term]).
Proof.
  revert need. induction run as [|c run IH]; intros need Hrun Hlen; simpl.
  - rewrite decide_True by done. simpl in Hlen. by replace need with 0 by lia.
  - apply not_elem_of_cons in Hrun as [Hc Hrun]. rewrite decide_False by done.
    rewrite IH; [done|done|]. simpl in Hlen. lia.
Qed.

Lemma run_until_absent term need s : term ∉ s → Re.run_until term need s = None.
Proof.
  revert need. induction s as [|c s IH]; intros need Hs; simpl; [done|].
  apply not_elem_of_cons in Hs as [Hc Hs].
  rewrite decide_False by done. by rewrite IH.
Qed.

(** A match of a run pattern is a prefix of the text it was found in, and
    the pattern finds it again in front of any other continuation. *)
Lemma run_until_question_run term s m :
  Re.run_until term 2 s = Some m ↔ (∃ rest, s = m ++ rest) ∧ question_run term m.
Proof.
  split.
  - intros (run & rest & -> & -> & Hrun & Hlen)%run_until_Some. split.
    + exists rest. by rewrite <- app_assoc.
    + by exists run.
  - intros [[rest ->] (run & -> & Hlen & Hrun)].
    rewrite <- app_assoc. simpl. by apply run_until_app.
Qed.

(** ** Well-formed sentences and the Latin pattern *)

Lemma well_formed_inv q :
  well_formed q = true →
  ∃ c body, q = c :: body ++ [Char.qmark] ∧ Char.is_upper c = true
            ∧ 3 ≤ length body ∧ Char.qmark ∉ body.
Proof.
  unfold well_formed. intros H.
  destruct (andb_prop _ _ H) as [H1 Hhead]. destruct (andb_prop _ _ H1) as [H2 Hrun].
  destruct (andb_prop _ _ H2) as [Hlast Hlen]. clear H H1 H2.
  apply bool_decide_eq_true in Hlast, Hlen, Hrun.
  apply last_Some in Hlast as [run ->].
  rewrite removelast_last in Hlen, Hrun, Hhead.
  destruct run as [|c body]; [done|]. simpl in Hhead, Hlen.
  exists c, body. apply not_elem_of_cons in Hrun as [_ Hrun].
  repeat split; [done|lia|done].
Qed.

Lemma well_formed_intro c body :
  Char.is_upper c = true → 3 ≤ length body → Char.qmark ∉ body →
  well_formed (c :: body ++ [Char.qmark]) = true.
Proof.
  intros Hc Hlen Hbody. unfold well_formed.
  change (c :: body ++ [Char.qmark]) with ((c :: body) ++ [Char.qmark]).
  rewrite removelast_last, last_snoc. simpl. rewrite Hc.
  repeat (apply andb_true_intro; split); try done; apply bool_decide_eq_true_2.
  - lia.
  - apply not_elem_of_cons. split; [|done]. intros E. by apply (upper_not_qmark c).
Qed.

Lemma well_formed_strip q : well_formed q = true → strip q = q.
Proof.
  intros (c & body & -> & Hc & _ & _)%well_formed_inv.
  apply strip_id; [by apply upper_not_space|done].
Qed.

Lemma latin_question_Some s m :
  Re.latin_question s = Some m ↔ (∃ rest, s = m ++ rest) ∧ well_formed m = true.
Proof.
  split.
  - destruct s as [|c s]; simpl; [done|].
    destruct (Char.is_upper c) eqn:Hc; [|done].
    destruct (Re.run_until Char.qmark 3 s) as [m'|] eqn:Hm; [|done].
    intros [= <-]. apply run_until_Some in Hm as (run & rest & -> & -> & Hrun & Hlen).
    split.
    + exists rest. simpl. by rewrite <- app_assoc.
    + by apply well_formed_intro.
  - intros [[rest ->] (c & body & -> & Hc & Hlen & Hbody)%well_formed_inv].
    simpl. rewrite Hc, <- app_assoc. simpl. by rewrite run_until_app.
Qed.

Lemma starts_sentence_iff s : starts_sentence s = true ↔ is_Some (Re.latin_question s).
Proof.
  unfold starts_sentence. rewrite existsb_exists. split.
  - intros (n & _ & Hn). exists (take n s). apply latin_question_Some.
    split; [|done]. exists (drop n s). by rewrite take_drop.
  - intros [m [[rest ->] Hm]%latin_question_Some].
    exists (length m). split.
    + apply in_seq. rewrite length_app. lia.
    + by rewrite take_app_length.
Qed.

Lemma not_starts_sentence s : starts_sentence s = false → Re.latin_question s = None.
Proof.
  intros H. destruct (Re.latin_question s) eqn:E; [|done].
  assert (starts_sentence s = true) by (apply starts_sentence_iff; by eexists).
  congruence.
Qed.

(** ** [findall] *)

Lemma findall_from_skip pat a rest :
  Re.findall_from pat (length a) (a ++ rest) = Re.findall_from pat 0 rest.
Proof. induction a as [|c a IH]; simpl; [by destruct rest|done]. Qed.

Lemma findall_match pat m rest :
  pat (m ++ rest) = Some m → m ≠ [] →
  Re.findall pat (m ++ rest) = m :: Re.findall pat rest.
Proof.
  intros Hm Hne. unfold Re.findall. destruct m as [|c m]; [done|].
  simpl in *. rewrite Hm. simpl. by rewrite findall_from_skip.
Qed.

Lemma findall_no_match pat c s :
  pat (c :: s) = None → Re.findall pat (c :: s) = Re.findall pat s.
Proof. intros H. unfold Re.findall. simpl. by rewrite H. Qed.

(** Every match returned was found by the pattern at some position. *)
Lemma findall_from_matched pat skip s m :
  m ∈ Re.findall_from pat skip s → ∃ s', pat s' = Some m.
Proof.
  revert skip. induction s as [|c s IH]; intros skip; simpl.
  - by intros ?%elem_of_nil.
  - destruct skip as [|k]; [|apply IH].
    destruct (pat (c :: s)) as [m'|] eqn:Hm; [|apply IH].
    intros [->|H]%elem_of_cons; [by eexists|by eapply IH].
Qed.

Lemma findall_from_nothing pat skip s :
  (∀ pre post, s = pre ++ post → pat post = None) →
  Re.findall_from pat skip s = [].
Proof.
  revert skip. induction s as [|c s IH]; intros skip H; simpl; [done|].
  assert (∀ k, Re.findall_from pat k s = []) as Hs.
  { intros k. apply IH. intros pre post ->. by apply (H (c :: pre)). }
  destruct skip; [|done]. by rewrite (H [] (c :: s)).
Qed.

Lemma findall_quiet sep rest :
  no_sentence_starts sep rest = true →
  Re.findall Re.latin_question (sep ++ rest) = Re.findall Re.latin_question rest.
Proof.
  induction sep as [|c sep IH]; simpl; [done|].
  intros [Hc Hsep]%andb_prop. apply negb_true_iff in Hc.
  rewrite findall_no_match; [by apply IH|].
  by apply (not_starts_sentence (c :: sep ++ rest)).
Qed.

Lemma findall_sentence q rest :
  well_formed q = true →
  Re.findall Re.latin_question (q ++ rest) = q :: Re.findall Re.latin_question rest.
Proof.
  intros Hq. apply findall_match.
  - apply latin_question_Some. split; [by exists rest|done].
  - by intros ->.
Qed.

Lemma findall_weave parts tail :
  laid_out parts tail = true →
  Re.findall Re.latin_question (weave parts tail) = parts.*2.
Proof.
  induction parts as [|[sep q] parts IH]; simpl.
  - intros H. rewrite <- (app_nil_r tail) at 1. by rewrite findall_quiet.
  - intros [[Hsep Hq]%andb_prop Hparts]%andb_prop.
    rewrite findall_quiet, findall_sentence by done. f_equal. by apply IH.
Qed.

(** ** [dict.fromkeys] *)

Lemma first_occurrences_ext (e d keys : list text) :
  (∀ k, k ∈ e ↔ k ∈ d) → first_occurrences e keys = first_occurrences d keys.
Proof.
  revert e d. induction keys as [|k keys IH]; intros e d He; simpl; [done|].
  rewrite (IH (k :: e) (k :: d)) by set_solver.
  destruct (decide (k ∈ e)), (decide (k ∈ d)); set_solver.
Qed.

Lemma fromkeys_acc (keys d : list text) :
  fold_left (λ d k, if decide (k ∈ d) then d else d ++ [k]) keys d
  = d ++ first_occurrences d keys.
Proof.
  revert d. induction keys as [|k keys IH]; intros d; simpl.
  - by rewrite app_nil_r.
  - destruct (decide (k ∈ d)) as [Hk|Hk].
    + rewrite IH. simpl. f_equal. apply first_occurrences_ext. set_solver.
    + rewrite IH, <- app_assoc. simpl. do 2 f_equal.
      apply first_occurrences_ext. set_solver.
Qed.

Lemma fromkeys_first_occurrences keys : fromkeys keys = first_occurrences [] keys.
Proof. unfold fromkeys. by rewrite fromkeys_acc. Qed.

Lemma first_occurrences_elem earlier l q :
  q ∈ first_occurrences earlier l ↔ q ∈ l ∧ q ∉ earlier.
Proof.
  revert earlier. induction l as [|k l IH]; intros earlier; simpl.
  - set_solver.
  - rewrite elem_of_app, IH.
    destruct (decide (q = k)) as [->|]; destruct (decide (k ∈ earlier)); set_solver.
Qed.

Lemma first_occurrences_NoDup earlier l : NoDup (first_occurrences earlier l).
Proof.
  revert earlier. induction l as [|k l IH]; intros earlier; simpl; [constructor|].
  destruct (decide (k ∈ earlier)); simpl; [apply IH|].
  constructor; [|apply IH]. rewrite first_occurrences_elem. set_solver.
Qed.

Lemma first_occurrences_id earlier l :
  NoDup l → (∀ q, q ∈ l → q ∉ earlier) → first_occurrences earlier l = l.
Proof.
  revert earlier. induction l as [|k l IH]; intros earlier Hl He; simpl; [done|].
  apply NoDup_cons in Hl as [Hk Hl].
  rewrite decide_False by (apply He; set_solver). simpl. f_equal.
  apply IH; [done|]. intros q Hq. specialize (He q). set_solver.
Qed.

(** ** [extract_questions] *)

Lemma laid_out_well_formed parts tail :
  laid_out parts tail = true → Forall (λ q, well_formed q = true) parts.*2.
Proof.
  induction parts as [|[sep q] parts IH]; simpl; [constructor|].
  intros [[_ Hq]%andb_prop Hparts]%andb_prop. constructor; [done|by apply IH].
Qed.

Lemma strip_well_formed qs :
  Forall (λ q, well_formed q = true) qs → strip <$> qs = qs.
Proof.
  induction 1 as [|q qs Hq _ IH]; [done|].
  by rewrite fmap_cons, well_formed_strip, IH.
Qed.

Lemma extract_questions_elem txt q :
  q ∈ extract_questions txt → ∃ s, Re.latin_question s = Some q.
Proof.
  unfold extract_questions. rewrite fromkeys_first_occurrences, first_occurrences_elem.
  intros [(m & -> & Hm)%list_elem_of_fmap _].
  apply findall_from_matched in Hm as [s Hs]. exists s.
  rewrite well_formed_strip; [done|]. by apply latin_question_Some in Hs as [_ ?].
Qed.

(** Every text is laid out so, in one way at least: the sentences are the
    matches of the pattern from left to right. *)
Lemma every_text_laid_out txt :
  ∃ parts tail, txt = weave parts tail ∧ laid_out parts tail = true.
Proof.
  remember (length txt) as n eqn:Hn. revert txt Hn.
  induction n as [n IH] using lt_wf_ind. intros [|c s] Hn.
  { by exists [], []. }
  destruct (Re.latin_question (c :: s)) as [m|] eqn:Hm.
  - apply latin_question_Some in Hm as [[rest Heq] Hwf].
    assert (m ≠ []) as Hne by (by intros ->).
    destruct (IH (length rest)) with (txt := rest) as (parts & tail & -> & Hlaid); [|done|].
    { rewrite Hn, Heq, length_app. destruct m; [done|]. simpl. lia. }
    exists (([], m) :: parts), tail. split; [done|]. simpl. by rewrite Hwf, Hlaid.
  - assert (starts_sentence (c :: s) = false) as Hstart.
    { destruct (starts_sentence (c :: s)) eqn:E; [|done].
      apply starts_sentence_iff in E as [m E]. congruence. }
    destruct (IH (length s)) with (txt := s) as (parts & tail & -> & Hlaid); [|done|].
    { rewrite Hn. simpl. lia. }
    destruct parts as [|[sep q] parts].
    + exists [], (c :: tail). split; [done|]. simpl in *.
      by rewrite app_nil_r, Hstart, Hlaid.
    + exists ((c :: sep, q) :: parts), tail. split; [done|]. simpl in *.
      rewrite Hstart. simpl. done.
Qed.

(** C1: when the text is made of N well-formed Latin question sentences
    and of text in between, before and after in which no well-formed
    sentence begins, [extract_questions] returns those N sentences in the
    order of their first appearance, each once, the later verbatim
    repetitions dropped; all N when they are distinct. *)
Theorem extract_questions_laid_out parts tail :
  laid_out parts tail = true →
  extract_questions (weave parts tail) = first_occurrences [] parts.*2
  ∧ NoDup (extract_questions (weave parts tail))
  ∧ (∀ q, q ∈ extract_questions (weave parts tail) ↔ q ∈ parts.*2)
  ∧ (NoDup parts.*2 → extract_questions (weave parts tail) = parts.*2).
Proof.
  intros H.
  assert (extract_questions (weave parts tail) = first_occurrences [] parts.*2) as ->.
  { unfold extract_questions. rewrite findall_weave by done.
    rewrite strip_well_formed by (by eapply laid_out_well_formed).
    apply fromkeys_first_occurrences. }
  split; [done|]. split; [apply first_occurrences_NoDup|]. split.
  - intros q. rewrite first_occurrences_elem. set_solver.
  - intros Hnd. apply first_occurrences_id; [done|]. intros q _. apply not_elem_of_nil.
Qed.

Lemma extract_questions_laid_out_witness :
  laid_out [(str " so ", str "What is it?"); (str " ok? or: ", str "Where is it?");
            (str " ", str "What is it?")] (str " Done") = true
  ∧ extract_questions (str " so What is it? ok? or: Where is it? What is it? Done")
    = [str "What is it?"; str "Where is it?"].
Proof.
  split; [reflexivity|].
  exact (proj1 (extract_questions_laid_out
    [(str " so ", str "What is it?"); (str " ok? or: ", str "Where is it?");
     (str " ", str "What is it?")] (str " Done") eq_refl)).
Defined.

(** A sentence begins at the first capital letter that can begin one: the
    text [A Bcde?] is one sentence, itself, though its end [Bcde?] is well
    formed too. *)
Lemma extract_questions_capital_before :
  well_formed (str "Bcde?") = true
  ∧ weave [(str "A ", str "Bcde?")] [] = str "A Bcde?"
  ∧ extract_questions (str "A Bcde?") = [str "A Bcde?"]
  ∧ extract_questions (str "A Bcde?") ≠ first_occurrences [] [str "Bcde?"].
Proof. repeat split. by vm_compute. Qed.

(** C9: a text with no Latin and no Arabic question mark has no
    questions. *)
Theorem extract_questions_no_terminator txt :
  Char.qmark ∉ txt → Char.arabic_qmark ∉ txt → extract_questions txt = [].
Proof.
  intros Hq _. unfold extract_questions, Re.findall.
  rewrite findall_from_nothing; [done|].
  intros pre [|c post] ->; [done|]. simpl.
  rewrite run_until_absent; [by destruct (Char.is_upper c)|].
  rewrite elem_of_app, elem_of_cons in Hq. tauto.
Qed.

Lemma extract_questions_no_terminator_witness :
  extract_questions (str "No question here. None at all") = [].
Proof.
  apply extract_questions_no_terminator; vm_compute;
    intros H; by repeat (apply elem_of_cons in H as [?|H]; [done|]); apply elem_of_nil in H.
Defined.

(** C10: every string [extract_questions] returns begins with an uppercase
    ASCII letter, ends with a question mark, has no other question mark,
    and has at least five characters, four of them before the question
    mark; so [Abc?] is never returned. *)
Theorem extract_questions_shape txt q :
  q ∈ extract_questions txt →
  (∃ c body, q = c :: body ++ [Char.qmark]
             ∧ Char.is_upper c = true
             ∧ (Char.qmark ∉ c :: body)
             ∧ 4 ≤ length (c :: body))
  ∧ 5 ≤ length q
  ∧ q ≠ str "Abc?".
Proof.
  intros [s [_ Hq]%latin_question_Some]%extract_questions_elem.
  apply well_formed_inv in Hq as (c & body & -> & Hc & Hlen & Hbody).
  assert (5 ≤ length (c :: body ++ [Char.qmark])) as Hfive.
  { simpl. rewrite length_app. simpl. lia. }
  split; [|split; [done|]].
  - exists c, body. repeat split; [done| |simpl; lia].
    apply not_elem_of_cons. split; [|done]. intros E. by apply (upper_not_qmark c).
  - intros E. rewrite E in Hfive. vm_compute in Hfive. lia.
Qed.

Lemma extract_questions_shape_witness :
  str "Who is it?" ∈ extract_questions (str "well. Who is it? Abc?")
  ∧ 5 ≤ length (str "Who is it?").
Proof.
  assert (str "Who is it?" ∈ extract_questions (str "well. Who is it? Abc?")) as H
    by (vm_compute; apply list_elem_of_here).
  split; [exact H|].
  exact (proj1 (proj2 (extract_questions_shape _ _ H))).
Defined.

(** ** [re.search] *)

Lemma search_Some pat s m :
  Re.search pat s = Some m →
  ∃ pre post, s = pre ++ post ∧ pat post = Some m
              ∧ ∀ pre' post', s = pre' ++ post' → length pre' < length pre →
                              pat post' = None.
Proof.
  induction s as [|c s IH]; simpl.
  - destruct (pat []) eqn:E; [|done]. intros [= ->].
    exists [], []. repeat split; [done|]. simpl. lia.
  - destruct (pat (c :: s)) eqn:E.
    + intros [= ->]. exists [], (c :: s). repeat split; [done|]. simpl. lia.
    + intros (pre & post & -> & Hm & Hleft)%IH.
      exists (c :: pre), post. repeat split; [done|].
      intros [|d pre'] post' Heq Hlen; simpl in *.
      * by subst.
      * injection Heq as _ Heq. apply (Hleft pre'); [done|lia].
Qed.

Lemma search_None pat s :
  Re.search pat s = None → ∀ pre post, s = pre ++ post → pat post = None.
Proof.
  induction s as [|c s IH]; simpl.
  - destruct (pat []) eqn:E; [done|]. by intros _ [|??] [|??] [=].
  - destruct (pat (c :: s)) eqn:E; [done|]. intros H [|d pre] post Heq.
    + simpl in Heq. by subst.
    + injection Heq as _ Heq. by apply (IH H pre).
Qed.

(** What [search] finds with a run pattern is the first run of the text. *)
Lemma search_first_run term txt m :
  Re.search (Re.run_until term 2) txt = Some m → first_run term txt m.
Proof.
  intros (pre & post & -> & [[rest ->] Hm]%run_until_question_run & Hleft)%search_Some.
  exists (length pre). split; [by exists pre, rest|]. split; [done|].
  intros n' m' (pre' & post' & Heq & <-) Hm'.
  destruct (decide (length pre ≤ length pre')) as [|Hlt]; [done|]. exfalso.
  assert (Re.run_until term 2 (m' ++ post') = Some m') as E.
  { apply run_until_question_run. split; [by exists post'|done]. }
  rewrite (Hleft pre' (m' ++ post')) in E; [done|done|lia].
Qed.

Lemma search_no_run term txt :
  Re.search (Re.run_until term 2) txt = None → ¬ has_run term txt.
Proof.
  intros H (n & m & (pre & post & -> & _) & Hm).
  assert (Re.run_until term 2 (m ++ post) = Some m) as E.
  { apply run_until_question_run. split; [by exists post|done]. }
  by rewrite (search_None _ _ H pre (m ++ post)) in E.
Qed.

Lemma first_run_unique term txt m m' :
  first_run term txt m → first_run term txt m' → m = m'.
Proof.
  intros (n & Hat & Hm & Hfirst) (n' & Hat' & Hm' & Hfirst').
  assert (n = n') as <-.
  { apply Nat.le_antisymm; [by eapply Hfirst|by eapply Hfirst']. }
  destruct Hat as (pre & post & -> & Hn), Hat' as (pre' & post' & Heq & Hn').
  apply app_inj_1 in Heq as [_ Heq]; [|congruence].
  assert (Re.run_until term 2 (m ++ post) = Some m) as E.
  { apply run_until_question_run. split; [by exists post|done]. }
  assert (Re.run_until term 2 (m' ++ post') = Some m') as E'.
  { apply run_until_question_run. split; [by exists post'|done]. }
  congruence.
Qed.

Lemma question_run_strip_nonempty term m :
  Char.is_space term = false → question_run term m → strip m ≠ [].
Proof.
  intros Hterm (run & -> & _ & _) H%strip_nil_iff.
  rewrite forallb_app in H. simpl in H. rewrite Hterm in H.
  by destruct (forallb Char.is_space run).
Qed.

(** ** [extract_question] *)

(** C7: [extract_question] returns, trimmed, the first run of at least two
    characters without the Arabic question mark that the Arabic question
    mark follows, when the text has such a run; otherwise the first run of
    the same kind for the Latin question mark; otherwise the whole text,
    trimmed.  The first run of a text is unique. *)
Theorem extract_question_chain txt :
  (has_run Char.arabic_qmark txt →
   ∃ m, first_run Char.arabic_qmark txt m
        ∧ (∀ m', first_run Char.arabic_qmark txt m' → m' = m)
        ∧ extract_question txt = strip m)
  ∧ (¬ has_run Char.arabic_qmark txt → has_run Char.qmark txt →
     ∃ m, first_run Char.qmark txt m
          ∧ (∀ m', first_run Char.qmark txt m' → m' = m)
          ∧ extract_question txt = strip m)
  ∧ (¬ has_run Char.arabic_qmark txt → ¬ has_run Char.qmark txt →
     extract_question txt = strip txt).
Proof.
  unfold extract_question, Re.arabic_run, Re.latin_run.
  destruct (Re.search (Re.run_until Char.arabic_qmark 2) txt) as [m_ar|] eqn:Har.
  { apply search_first_run in Har. split; [|split].
    - intros _. exists m_ar. split; [done|]. split; [|done].
      intros m' Hm'. by eapply first_run_unique.
    - intros []. destruct Har as (n & ? & ? & _). by exists n, m_ar.
    - intros []. destruct Har as (n & ? & ? & _). by exists n, m_ar. }
  apply search_no_run in Har. split; [done|].
  destruct (Re.search (Re.run_until Char.qmark 2) txt) as [m_en|] eqn:Hen.
  { apply search_first_run in Hen. split.
    - intros _ _. exists m_en. split; [done|]. split; [|done].
      intros m' Hm'. by eapply first_run_unique.
    - intros _ []. destruct Hen as (n & ? & ? & _). by exists n, m_en. }
  apply search_no_run in Hen. split; [done|]. done.
Qed.

Lemma extract_question_chain_witness :
  has_run Char.arabic_qmark (str "x! " ++ [0x645; 0x646; 0x61F; 0x61F]%Z ++ str " Who? ")
  ∧ extract_question (str "x! " ++ [0x645; 0x646; 0x61F; 0x61F]%Z ++ str " Who? ")
    = str "x! " ++ [0x645; 0x646; 0x61F]%Z.
Proof.
  assert (question_run Char.arabic_qmark (str "x! " ++ [0x645; 0x646; 0x61F]%Z)) as Hrun.
  { exists (str "x! " ++ [0x645; 0x646]%Z). split; [done|]. split; [vm_compute; lia|].
    vm_compute. intros E. by repeat (apply elem_of_cons in E as [?|E]; [done|]);
      apply elem_of_nil in E. }
  assert (occurs_at 0 (str "x! " ++ [0x645; 0x646; 0x61F]%Z)
            (str "x! " ++ [0x645; 0x646; 0x61F; 0x61F]%Z ++ str " Who? ")) as Hat
    by (by exists [], ([0x61F]%Z ++ str " Who? ")).
  assert (has_run Char.arabic_qmark
            (str "x! " ++ [0x645; 0x646; 0x61F; 0x61F]%Z ++ str " Who? ")) as H
    by (by eexists 0, _).
  split; [exact H|].
  destruct (proj1 (extract_question_chain _) H) as (m & _ & Hu & ->).
  rewrite <- (Hu (str "x! " ++ [0x645; 0x646; 0x61F]%Z)); [reflexivity|].
  exists 0. repeat split; [done..|]. intros; lia.
Defined.

(** The Latin pattern of [extract_question] asks for no capital letter and
    for two characters only: on this text the pattern of
    [extract_questions] begins at the capital letter. *)
Example extract_question_latin_run :
  extract_question (str "foo Bar baz? more") = str "foo Bar baz?"
  ∧ extract_questions (str "foo Bar baz? more") = [str "Bar baz?"].
Proof. by vm_compute. Qed.

(** C2, as amended: on a text that has a character other than white space,
    [extract_question] returns a non-empty question. *)
Theorem extract_question_nonempty txt :
  (∃ c, c ∈ txt ∧ Char.is_space c = false) → extract_question txt ≠ [].
Proof.
  intros (c & Hc & Hsp). unfold extract_question, Re.arabic_run, Re.latin_run.
  destruct (Re.search (Re.run_until Char.arabic_qmark 2) txt) as [m_ar|] eqn:Har.
  { apply search_first_run in Har as (_ & _ & Hm & _).
    by apply (question_run_strip_nonempty Char.arabic_qmark). }
  destruct (Re.search (Re.run_until Char.qmark 2) txt) as [m_en|] eqn:Hen.
  { apply search_first_run in Hen as (_ & _ & Hm & _).
    by apply (question_run_strip_nonempty Char.qmark). }
  intros H%strip_nil_iff. rewrite forallb_forall in H.
  apply list_elem_of_In in Hc. apply H in Hc. congruence.
Qed.

Lemma extract_question_nonempty_witness :
  (∃ c, c ∈ str " hi " ∧ Char.is_space c = false) ∧ extract_question (str " hi ") ≠ [].
Proof.
  assert (∃ c, c ∈ str " hi " ∧ Char.is_space c = false) as H.
  { exists 104%Z. split; [|reflexivity]. vm_compute. apply list_elem_of_further, list_elem_of_here. }
  split; [exact H|]. exact (extract_question_nonempty _ H).
Defined.

(** C2, as stated, fails: a text of white space only is not empty, and the
    question extracted from it is. *)
Lemma extract_question_blank :
  str " " ≠ [] ∧ [Char.newline; 12%Z] ≠ []
  ∧ extract_question (str " ") = []
  ∧ extract_question [Char.newline; 12%Z] = [].
Proof. repeat split; done. Qed.

(** ** The region selector *)

Lemma wait_window_destroyed o events : destroyed o = true → wait_window o events = Some o.
Proof. intros H. destruct events; simpl; by rewrite H. Qed.

Lemma wait_window_motions o (moves : list (Z * Z)) rest :
  destroyed o = false →
  ∃ o', wait_window o (((λ p, Motion p.1 p.2) <$> moves) ++ rest) = wait_window o' rest
        ∧ sel o' = sel o ∧ destroyed o' = false.
Proof.
  revert o. induction moves as [|[x y] moves IH]; intros o Ho.
  - by exists o.
  - rewrite fmap_cons. simpl. rewrite Ho.
    destruct (IH (on_drag o x y)) as (o' & -> & Hsel & Hd).
    + unfold on_drag. by repeat case_match.
    + exists o'. split; [done|]. split; [|done].
      rewrite Hsel. unfold on_drag. by repeat case_match.
Qed.

(** C8: a drag pressed at (a,b) and released at (c,d), whatever the pointer
    did in between, gives the rectangle (min a c, min b d, max a c,
    max b d); every rectangle the selector returns has x1 <= x2 and
    y1 <= y2; and the drag from (100,100) to (10,10) gives
    (10,10,100,100). *)
Theorem select_region_normalized :
  (∀ a b c d (moves : list (Z * Z)) later,
     select_region (ButtonPress a b :: ((λ p, Motion p.1 p.2) <$> moves)
                    ++ ButtonRelease c d :: later)
     = Some (Some (Z.min a c, Z.min b d, Z.max a c, Z.max b d)))
  ∧ (∀ events x1 y1 x2 y2,
       select_region events = Some (Some (x1, y1, x2, y2)) → (x1 ≤ x2)%Z ∧ (y1 ≤ y2)%Z)
  ∧ select_region [ButtonPress 100 100; ButtonRelease 10 10]
    = Some (Some (10, 10, 100, 100)%Z).
Proof.
  split; [|split].
  - intros a b c d moves later. unfold select_region. simpl.
    destruct (wait_window_motions (on_press {| sel := ∅; rect := None; destroyed := false |} a b)
                moves (ButtonRelease c d :: later)) as (o' & -> & Hsel & Hd); [done|].
    simpl. rewrite Hd, wait_window_destroyed by done. simpl. rewrite Hsel. simpl.
    by simplify_map_eq.
  - intros events x1 y1 x2 y2. unfold select_region.
    destruct (wait_window _ events) as [o|]; simpl; [|done].
    repeat case_match; try done. intros [= <- <- <- <-]. lia.
  - reflexivity.
Qed.

Lemma select_region_normalized_witness :
  select_region [ButtonPress 7 40; Motion 5 50; ButtonRelease 3 90; Escape]
  = Some (Some (3, 40, 7, 90)%Z)
  ∧ (3 ≤ 7)%Z ∧ (40 ≤ 90)%Z.
Proof.
  split; [reflexivity|].
  exact (proj1 (proj2 select_region_normalized)
           [ButtonPress 7 40; Motion 5 50; ButtonRelease 3 90; Escape] 3 40 7 90 eq_refl)%Z.
Defined.

(** ** The polling loop of screen_qna.py *)

Lemma query_openai_requests e q rq :
  (Cli.query_openai e q rq).2 = if key_missing e then rq else rq ++ [q].
Proof.
  unfold Cli.query_openai, create. destruct (key_missing e); [done|].
  by destruct (service e (length rq) q).
Qed.

Lemma quiet_for_refl q st : q ∈ Cli.seen st → quiet_for q st st.
Proof.
  intros H. split; [done|]. exists [], []. rewrite !app_nil_r.
  repeat split; apply not_elem_of_nil.
Qed.

Lemma quiet_for_trans q st1 st2 st3 :
  quiet_for q st1 st2 → quiet_for q st2 st3 → quiet_for q st1 st3.
Proof.
  intros (_ & rq & out & Hrq & Hout & ? & ?) (? & rq' & out' & Hrq' & Hout' & ? & ?).
  split; [done|]. exists (rq ++ rq'), (out ++ out').
  rewrite Hrq', Hrq, Hout', Hout, !app_assoc, !not_elem_of_app. done.
Qed.

Lemma for_body_quiet e q st q0 : q ∈ Cli.seen st → quiet_for q st (Cli.for_body e st q0).
Proof.
  intros Hq. unfold Cli.for_body.
  destruct (decide (q0 ∈ Cli.seen st)) as [|Hq0]; [by apply quiet_for_refl|].
  assert (q ≠ q0) as Hne by (by intros ->).
  pose proof (query_openai_requests e q0 (Cli.requests st)) as Hrq.
  destruct (Cli.query_openai e q0 (Cli.requests st)) as [[answer|msg] rq];
    simpl in Hrq; subst rq; (split; [set_solver|]); simpl.
  all: exists (if key_missing e then [] else [q0]); eexists; split;
    [by destruct (key_missing e); rewrite ?app_nil_r|]; split; [done|];
    split; [destruct (key_missing e); set_solver|];
    rewrite !not_elem_of_cons; repeat split; try done; try congruence; apply not_elem_of_nil.
Qed.

Lemma cycle_quiet e q st txt : q ∈ Cli.seen st → quiet_for q st (Cli.cycle e st txt).
Proof.
  unfold Cli.cycle. generalize (extract_questions txt) as qs.
  intros qs. revert st. induction qs as [|q0 qs IH]; intros st Hq; simpl.
  - by apply quiet_for_refl.
  - pose proof (for_body_quiet e q st q0 Hq) as H1.
    eapply quiet_for_trans; [exact H1|]. apply IH. by destruct H1.
Qed.

Lemma main_loop_quiet e once frames q st :
  q ∈ Cli.seen st → quiet_for q st (Cli.main_loop e once frames st).2.
Proof.
  revert st. induction frames as [|[txt| |msg] frames IH]; intros st Hq; simpl.
  - by apply quiet_for_refl.
  - pose proof (cycle_quiet e q st txt Hq) as H1.
    destruct once; [done|]. eapply quiet_for_trans; [exact H1|]. apply IH. by destruct H1.
  - split; [done|]. exists [], [Cli.Exiting]. rewrite app_nil_r.
    repeat split; [apply not_elem_of_nil|]. by intros [=]%list_elem_of_singleton.
  - by apply quiet_for_refl.
Qed.

Lemma for_body_stdout e st q :
  ∃ out, Cli.stdout (Cli.for_body e st q) = Cli.stdout st ++ out
         ∧ (q ∉ Cli.seen st → Cli.QuestionDetected q ∈ out)
         ∧ Cli.seen (Cli.for_body e st q) ⊆ {[q]} ∪ Cli.seen st.
Proof.
  unfold Cli.for_body. destruct (decide (q ∈ Cli.seen st)) as [Hq|Hq].
  - exists []. rewrite app_nil_r. repeat split; [done|set_solver].
  - destruct (Cli.query_openai e q (Cli.requests st)) as [[answer|msg] rq]; simpl;
      eexists; (split; [done|]); (split; [intros _; apply list_elem_of_here|set_solver]).
Qed.

Lemma cycle_asks e qs q st :
  q ∈ qs → q ∉ Cli.seen st →
  ∃ out, Cli.stdout (fold_left (Cli.for_body e) qs st) = Cli.stdout st ++ out
         ∧ Cli.QuestionDetected q ∈ out.
Proof.
  assert (∀ qs st, ∃ out, Cli.stdout (fold_left (Cli.for_body e) qs st) = Cli.stdout st ++ out)
    as Hgrow.
  { clear. intros qs. induction qs as [|q0 qs IH]; intros st; simpl.
    - exists []. by rewrite app_nil_r.
    - destruct (IH (Cli.for_body e st q0)) as [out ->].
      destruct (for_body_stdout e st q0) as (out0 & -> & _).
      exists (out0 ++ out). by rewrite app_assoc. }
  revert st. induction qs as [|q0 qs IH]; intros st Hin Hq; simpl.
  - by apply elem_of_nil in Hin.
  - destruct (for_body_stdout e st q0) as (out0 & Hout0 & Hask & Hseen).
    destruct (decide (q = q0)) as [->|Hne].
    + destruct (Hgrow qs (Cli.for_body e st q0)) as [out ->].
      exists (out0 ++ out). rewrite Hout0, app_assoc. split; [done|].
      apply elem_of_app. left. by apply Hask.
    + destruct (IH (Cli.for_body e st q0)) as (out & -> & Hout); [set_solver|set_solver|].
      exists (out0 ++ out). rewrite Hout0, app_assoc. split; [done|].
      apply elem_of_app. by right.
Qed.

Lemma main_loop_screens e (txts : list text) st :
  Cli.main_loop e false (Cli.Screen <$> txts) st = (Cli.Polling, fold_left (Cli.cycle e) txts st).
Proof.
  revert st. induction txts as [|txt txts IH]; intros st; [done|].
  rewrite fmap_cons. simpl. apply IH.
Qed.

(** C6: in the polling loop a question enters the set of seen questions
    only when its query returned an answer, and then it does enter it,
    with the answer printed; when the query fails the failure is printed
    and the set is unchanged, so the question is asked again in any later
    cycle that detects it; a question of the set is skipped, and is never
    announced or sent again, however the run goes on.  A cycle runs the
    loop body on each question extracted from the text, in order, and the
    loop goes on from frame to frame whatever the queries came to (once
    only with [--once]). *)
Theorem continuous_seen_set e :
  (∀ st q, Cli.seen (Cli.for_body e st q) ≠ Cli.seen st →
     ∃ answer, (Cli.query_openai e q (Cli.requests st)).1 = Returned answer
               ∧ Cli.seen (Cli.for_body e st q) = {[q]} ∪ Cli.seen st)
  ∧ (∀ st q msg, q ∉ Cli.seen st →
       (Cli.query_openai e q (Cli.requests st)).1 = Raised msg →
       Cli.seen (Cli.for_body e st q) = Cli.seen st
       ∧ Cli.stdout (Cli.for_body e st q)
         = Cli.stdout st ++ [Cli.QuestionDetected q; Cli.QueryFailed msg])
  ∧ (∀ st txt q, q ∈ extract_questions txt → q ∉ Cli.seen st →
       ∃ out, Cli.stdout (Cli.cycle e st txt) = Cli.stdout st ++ out
              ∧ Cli.QuestionDetected q ∈ out)
  ∧ (∀ once frames st q, q ∈ Cli.seen st →
       let st' := (Cli.main_loop e once frames st).2 in
       q ∈ Cli.seen st'
       ∧ ∃ rq out, Cli.requests st' = Cli.requests st ++ rq
                   ∧ Cli.stdout st' = Cli.stdout st ++ out
                   ∧ (q ∉ rq) ∧ (Cli.QuestionDetected q ∉ out))
  ∧ (∀ st q answer, q ∉ Cli.seen st →
       (Cli.query_openai e q (Cli.requests st)).1 = Returned answer →
       Cli.seen (Cli.for_body e st q) = {[q]} ∪ Cli.seen st
       ∧ Cli.requests (Cli.for_body e st q) = Cli.requests st ++ [q]
       ∧ Cli.stdout (Cli.for_body e st q)
         = Cli.stdout st ++ [Cli.QuestionDetected q; Cli.AnswerPrinted answer])
  ∧ (∀ st q, q ∉ Cli.seen st →
       Cli.requests (Cli.for_body e st q) = (Cli.query_openai e q (Cli.requests st)).2)
  ∧ (∀ st q, q ∈ Cli.seen st → Cli.for_body e st q = st)
  ∧ (∀ st txt, Cli.cycle e st txt = fold_left (Cli.for_body e) (extract_questions txt) st)
  ∧ (∀ st txts,
       Cli.main_loop e false (Cli.Screen <$> txts) st
       = (Cli.Polling, fold_left (Cli.cycle e) txts st))
  ∧ (∀ st txt frames,
       Cli.main_loop e true (Cli.Screen txt :: frames) st = (Cli.Ended, Cli.cycle e st txt)).
Proof.
  repeat apply conj.
  - intros st q. unfold Cli.for_body.
    destruct (decide (q ∈ Cli.seen st)); [done|].
    destruct (Cli.query_openai e q (Cli.requests st)) as [[answer|msg] rq]; simpl; [|done].
    intros _. by exists answer.
  - intros st q msg Hq. unfold Cli.for_body. rewrite decide_False by done.
    destruct (Cli.query_openai e q (Cli.requests st)) as [[answer|msg'] rq]; simpl; [done|].
    by intros [= ->].
  - intros st txt q. apply cycle_asks.
  - intros once frames st q Hq. by apply main_loop_quiet.
  - intros st q answer Hq. unfold Cli.for_body. rewrite decide_False by done.
    pose proof (query_openai_requests e q (Cli.requests st)) as Hrq.
    destruct (Cli.query_openai e q (Cli.requests st)) as [[answer'|msg] rq] eqn:E;
      simpl; [|done].
    intros [= ->]. simpl in Hrq. subst rq.
    assert (key_missing e = false) as ->; [|done].
    unfold Cli.query_openai in E. by destruct (key_missing e).
  - intros st q Hq. unfold Cli.for_body. rewrite decide_False by done.
    by destruct (Cli.query_openai e q (Cli.requests st)) as [[answer|msg] rq].
  - intros st q Hq. unfold Cli.for_body. by rewrite decide_True.
  - done.
  - intros st txts. apply main_loop_screens.
  - done.
Qed.

Lemma continuous_seen_set_witness :
  let e := {| OPENAI_API_KEY := Some (str "sk-1");
              service := λ n _, match n with
                                | 0 => ServiceError (str "timed out")
                                | _ => Content (str " A test. ")
                                end |} in
  let st := {| Cli.seen := ∅; Cli.requests := []; Cli.stdout := [] |} in
  (str "What is it?" ∉ Cli.seen st)
  ∧ (Cli.query_openai e (str "What is it?") (Cli.requests st)).1 = Raised (str "timed out")
  ∧ Cli.seen (Cli.for_body e st (str "What is it?")) = Cli.seen st
  ∧ Cli.stdout (Cli.for_body e st (str "What is it?"))
    = Cli.stdout st ++ [Cli.QuestionDetected (str "What is it?");
                        Cli.QueryFailed (str "timed out")].
Proof.
  intros e st.
  assert (str "What is it?" ∉ Cli.seen st) as H by apply not_elem_of_empty.
  split; [exact H|]. split; [reflexivity|].
  exact (proj1 (proj2 (continuous_seen_set e)) st _ _ H eq_refl).
Defined.

Lemma fold_for_body_missing_key e qs st :
  key_missing e = true →
  fold_left (Cli.for_body e) qs st
  = {| Cli.seen := Cli.seen st;
       Cli.requests := Cli.requests st;
       Cli.stdout := Cli.stdout st
         ++ flat_map (λ q, if decide (q ∈ Cli.seen st) then []
                           else [Cli.QuestionDetected q; Cli.QueryFailed Cli.not_set]) qs |}.
Proof.
  intros Hkey. revert st. induction qs as [|q qs IH]; intros st; simpl.
  - rewrite app_nil_r. by destruct st.
  - rewrite IH. unfold Cli.for_body, Cli.query_openai. rewrite Hkey.
    destruct (decide (q ∈ Cli.seen st)); simpl; [done|]. by rewrite <- app_assoc.
Qed.

Lemma main_loop_crash e once frames st msg :
  (Cli.main_loop e once frames st).1 = Cli.Crashed msg → Cli.CaptureError msg ∈ frames.
Proof.
  revert st. induction frames as [|[txt| |msg'] frames IH]; intros st; simpl; [done| |done|].
  - destruct once; [done|]. intros H%IH. by apply list_elem_of_further.
  - intros [= ->]. apply list_elem_of_here.
Qed.

(** C5, as amended: without the key the answer call fails at once, with
    the message that the variable is not set, and nothing goes to the
    service; in the polling loop that failure is printed like any other
    failed query, the question stays out of the set of seen questions, the
    rest of the cycle runs, and the run goes on to the next frame: only an
    exception of the capture ends a run in a crash. *)
Theorem missing_key_reported e :
  key_missing e = true →
  (∀ q rq, Cli.query_openai e q rq = (Raised Cli.not_set, rq)
           ∧ Gui.query_openai e q rq = (Raised Gui.not_set, rq)
           ∧ Snap.ask_ai e q rq = (Raised Snap.not_set, rq))
  ∧ (∀ st txt,
       Cli.cycle e st txt
       = {| Cli.seen := Cli.seen st;
            Cli.requests := Cli.requests st;
            Cli.stdout := Cli.stdout st
              ++ flat_map (λ q, if decide (q ∈ Cli.seen st) then []
                                else [Cli.QuestionDetected q; Cli.QueryFailed Cli.not_set])
                   (extract_questions txt) |})
  ∧ (∀ st txt frames,
       Cli.main_loop e false (Cli.Screen txt :: frames) st
       = Cli.main_loop e false frames (Cli.cycle e st txt))
  ∧ (∀ once frames st msg,
       (Cli.main_loop e once frames st).1 = Cli.Crashed msg → Cli.CaptureError msg ∈ frames).
Proof.
  intros Hkey. split; [|split; [|split]].
  - intros q rq. unfold Cli.query_openai, Gui.query_openai, Snap.ask_ai. by rewrite Hkey.
  - intros st txt. by apply fold_for_body_missing_key.
  - done.
  - intros once frames st msg. apply main_loop_crash.
Qed.

Lemma missing_key_reported_witness :
  let e := {| OPENAI_API_KEY := None; service := λ _ _, Content (str "unused") |} in
  key_missing e = true
  ∧ Cli.query_openai e (str "What is it?") [] = (Raised Cli.not_set, []).
Proof.
  intros e. split; [reflexivity|].
  exact (proj1 (proj1 (missing_key_reported e eq_refl) (str "What is it?") [])).
Defined.

(** C5, as stated, fails in its second half: with no key the polling loop
    is not aborted.  Both frames are read, the failure is printed once per
    frame, nothing is sent, and the run is still polling. *)
Lemma missing_key_not_fatal :
  let e := {| OPENAI_API_KEY := None; service := λ _ _, Content (str "unused") |} in
  Cli.main e false [Cli.Screen (str "What is it?"); Cli.Screen (str "What is it?")]
  = (Cli.Polling,
     {| Cli.seen := ∅;
        Cli.requests := [];
        Cli.stdout := [Cli.QuestionDetected (str "What is it?"); Cli.QueryFailed Cli.not_set;
                       Cli.QuestionDetected (str "What is it?"); Cli.QueryFailed Cli.not_set] |})
  ∧ ∀ msg, (Cli.main e false [Cli.Screen (str "What is it?");
                               Cli.Screen (str "What is it?")]).1 ≠ Cli.Crashed msg.
Proof.
  intros e.
  assert (Cli.main e false [Cli.Screen (str "What is it?"); Cli.Screen (str "What is it?")]
          = (Cli.Polling,
             {| Cli.seen := ∅;
                Cli.requests := [];
                Cli.stdout := [Cli.QuestionDetected (str "What is it?");
                               Cli.QueryFailed Cli.not_set;
                               Cli.QuestionDetected (str "What is it?");
                               Cli.QueryFailed Cli.not_set] |})) as H.
  { by vm_compute. }
  split; [exact H|]. intros msg. by rewrite H.
Qed.

(** ** What each front end sends to the service *)

Lemma extract_questions_NoDup txt : NoDup (extract_questions txt).
Proof.
  unfold extract_questions. rewrite fromkeys_first_occurrences.
  apply first_occurrences_NoDup.
Qed.

Lemma filter_agree (P Q : text → Prop) `{∀ x, Decision (P x)} `{∀ x, Decision (Q x)}
    (l : list text) :
  (∀ x, x ∈ l → P x ↔ Q x) → filter P l = filter Q l.
Proof.
  induction l as [|x l IH]; intros Hl; [done|].
  rewrite !filter_cons, IH by (intros; apply Hl; by apply list_elem_of_further).
  destruct (decide (P x)), (decide (Q x)); [done| | |done];
    exfalso; pose proof (Hl x (list_elem_of_here _ _)); tauto.
Qed.

Lemma for_body_requests e st q :
  key_missing e = false →
  Cli.requests (Cli.for_body e st q)
  = Cli.requests st ++ (if decide (q ∈ Cli.seen st) then [] else [q])
  ∧ Cli.seen st ⊆ Cli.seen (Cli.for_body e st q)
  ∧ Cli.seen (Cli.for_body e st q) ⊆ {[q]} ∪ Cli.seen st.
Proof.
  intros Hkey. unfold Cli.for_body.
  destruct (decide (q ∈ Cli.seen st)); [rewrite app_nil_r; split; [done|set_solver]|].
  pose proof (query_openai_requests e q (Cli.requests st)) as Hrq. rewrite Hkey in Hrq.
  destruct (Cli.query_openai e q (Cli.requests st)) as [[answer|msg] rq];
    simpl in *; subst rq; (split; [done|set_solver]).
Qed.

Lemma fold_for_body_requests e qs st :
  key_missing e = false → NoDup qs →
  Cli.requests (fold_left (Cli.for_body e) qs st)
  = Cli.requests st ++ filter (λ q, q ∉ Cli.seen st) qs.
Proof.
  intros Hkey Hqs. revert st. induction Hqs as [|q qs Hq _ IH]; intros st; simpl.
  - by rewrite app_nil_r.
  - destruct (for_body_requests e st q Hkey) as (Hrq & Hsub & Hsup).
    rewrite IH, Hrq, <- app_assoc. f_equal.
    assert (filter (λ q0, q0 ∉ Cli.seen (Cli.for_body e st q)) qs
            = filter (λ q0, q0 ∉ Cli.seen st) qs) as ->.
    { apply filter_agree. intros q0 Hq0.
      assert (q0 ≠ q) by (by intros ->). set_solver. }
    rewrite filter_cons. destruct (decide (q ∈ Cli.seen st)).
    + by rewrite decide_False by (by intros []).
    + by rewrite decide_True by done.
Qed.

(** C3, as amended: with the key set, the GUI sends the question that
    [extract_question] draws from the OCR text; the snap tool sends the
    whole OCR text, trimmed, and nothing when that is empty; the polling
    loop sends, in their order, the questions [extract_questions] draws
    from the OCR text that are not in the set of seen questions. *)
Theorem question_sent e :
  key_missing e = false →
  (∀ unicode_decimal txt rq,
     (Gui.run_ocr_and_answer unicode_decimal e txt rq).2 = rq ++ [extract_question txt])
  ∧ (∀ show_text raw st,
       Snap.requests (Snap.answer_selection e show_text raw st)
       = Snap.requests st ++ (if decide (strip raw = []) then [] else [strip raw]))
  ∧ (∀ st txt,
       Cli.requests (Cli.cycle e st txt)
       = Cli.requests st ++ filter (λ q, q ∉ Cli.seen st) (extract_questions txt)).
Proof.
  intros Hkey. split; [|split].
  - intros ud txt rq. unfold Gui.run_ocr_and_answer, Gui.query_openai, create.
    rewrite Hkey. by destruct (service e (length rq) (extract_question txt)).
  - intros show_text raw st. unfold Snap.answer_selection.
    destruct (strip raw) as [|c txt] eqn:Hraw; simpl.
    + by rewrite app_nil_r.
    + unfold Snap.ask_ai, create. rewrite Hkey.
      by destruct show_text; simpl; destruct (service e _ (c :: txt)).
  - intros st txt. apply fold_for_body_requests; [done|apply extract_questions_NoDup].
Qed.

Lemma question_sent_witness :
  let e := {| OPENAI_API_KEY := Some (str "sk-1"); service := λ _ _, Content (str "Paris") |} in
  key_missing e = false
  ∧ (Gui.run_ocr_and_answer (λ _, false) e (str "Quiz. What is the capital of France? ") []).2
    = [str "Quiz. What is the capital of France?"].
Proof.
  intros e. split; [reflexivity|].
  exact (proj1 (question_sent e eq_refl) (λ _, false)
           (str "Quiz. What is the capital of France? ") []).
Defined.

(** C3, as stated, fails for the snap tool, an interactive single-shot
    flow: it sends the whole trimmed OCR text, not the question the
    fallback chain would draw from it. *)
Lemma snap_sends_whole_text :
  let e := {| OPENAI_API_KEY := Some (str "sk-1"); service := λ _ _, Content (str "Paris") |} in
  Snap.requests (Snap.answer_selection e false (str " Why so? Page 2 ")
                   {| Snap.requests := []; Snap.stdout := [] |})
  = [str "Why so? Page 2"]
  ∧ extract_question (str " Why so? Page 2 ") = str "Why so?"
  ∧ str "Why so? Page 2" ≠ str "Why so?".
Proof. repeat split; done. Qed.

(** ** The answer formatter *)

Lemma rest_of_line_id s : Char.newline ∉ s → rest_of_line s = s.
Proof.
  induction s as [|c s IH]; simpl; [done|].
  intros [Hc Hs]%not_elem_of_cons. rewrite decide_False by done. by rewrite IH.
Qed.

Lemma lstrip_spaces ws s : forallb Char.is_space ws = true → lstrip (ws ++ s) = lstrip s.
Proof.
  induction ws as [|c ws IH]; simpl; [done|].
  intros [-> Hws]%andb_prop. by apply IH.
Qed.

Lemma strip_last s s' d : strip s = s → s = s' ++ [d] → Char.is_space d = false.
Proof.
  unfold strip, rstrip. intros H ->.
  apply (f_equal (@rev Z)) in H. rewrite rev_involutive, rev_app_distr in H. simpl in H.
  by apply lstrip_head in H.
Qed.

Lemma rstrip_app_keep a b d : Char.is_space d = false → rstrip (a ++ b ++ [d]) = a ++ b ++ [d].
Proof. intros H. rewrite app_assoc. by apply rstrip_snoc_keep. Qed.

Lemma space_not_percent c : Char.is_space c = true → Char.is_percent c = false.
Proof. unfold Char.is_space, Char.is_percent, Char.percent, Char.arabic_percent. lia. Qed.

Lemma is_percent_inv c :
  Char.is_percent c = true → c = Char.percent ∨ c = Char.arabic_percent.
Proof. unfold Char.is_percent. lia. Qed.

Lemma prefix_for_head txt : ∃ c p, prefix_for txt = c :: p ∧ Char.is_space c = false.
Proof. unfold prefix_for. destruct (is_arabic txt); by eexists _, _. Qed.

Lemma is_arabic_iff txt :
  is_arabic txt = true ↔ ∃ ch, ch ∈ txt ∧ (0x600 ≤ ch ≤ 0x6FF)%Z.
Proof.
  unfold is_arabic. rewrite existsb_exists. unfold Char.in_arabic_block.
  split; intros (ch & Hch & H); exists ch; (split; [by apply list_elem_of_In|lia]).
Qed.

Lemma spaces_then_line_Some s body :
  spaces_then_line s = Some body →
  ∃ ws rest, s = ws ++ rest ∧ ws ≠ [] ∧ forallb Char.is_space ws = true.
Proof.
  destruct s as [|c s]; simpl; [done|]. destruct (Char.is_space c) eqn:Hc; [|done].
  intros _. exists [c], s. simpl. by rewrite Hc.
Qed.

Lemma spaces_then_line_app ws body :
  ws ≠ [] → forallb Char.is_space ws = true → lstrip body = body → Char.newline ∉ body →
  spaces_then_line (ws ++ body) = Some body.
Proof.
  destruct ws as [|c ws]; [done|]. simpl. intros _ [-> Hws]%andb_prop Hbody Hnl.
  by rewrite lstrip_spaces, Hbody, rest_of_line_id.
Qed.

Lemma percent_then_Some s pct body :
  percent_then s = Some (pct, body) →
  ∃ ws rest, s = pct ++ ws ++ rest
             ∧ (pct = [] ∨ pct = [Char.percent] ∨ pct = [Char.arabic_percent])
             ∧ ws ≠ [] ∧ forallb Char.is_space ws = true.
Proof.
  assert (∀ s, (λ body, ([], body)) <$> spaces_then_line s = Some (pct, body) →
               ∃ ws rest, s = pct ++ ws ++ rest
                 ∧ (pct = [] ∨ pct = [Char.percent] ∨ pct = [Char.arabic_percent])
                 ∧ ws ≠ [] ∧ forallb Char.is_space ws = true) as Hskip.
  { intros s0. destruct (spaces_then_line s0) as [b|] eqn:E; [|done].
    intros [= <- _]. apply spaces_then_line_Some in E as (ws & rest & -> & ? & ?).
    exists ws, rest. split; [done|]. split; [by left|done]. }
  destruct s as [|c s]; simpl; [done|].
  destruct (Char.is_percent c) eqn:Hc; [|apply (Hskip (c :: s))].
  destruct (spaces_then_line s) as [b|] eqn:E; [|apply (Hskip (c :: s))].
  intros [= <- _]. apply spaces_then_line_Some in E as (ws & rest & -> & ? & ?).
  exists ws, rest. split; [done|]. split; [|done]. right.
  by destruct (is_percent_inv c Hc) as [->| ->]; [left|right].
Qed.

Lemma percent_then_app pct ws body :
  (pct = [] ∨ pct = [Char.percent] ∨ pct = [Char.arabic_percent]) →
  ws ≠ [] → forallb Char.is_space ws = true → lstrip body = body → Char.newline ∉ body →
  percent_then (pct ++ ws ++ body) = Some (pct, body).
Proof.
  intros Hpct Hne Hws Hbody Hnl.
  pose proof (spaces_then_line_app ws body Hne Hws Hbody Hnl) as Hsp.
  destruct Hpct as [->|[->| ->]]; simpl.
  - destruct ws as [|c ws]; [done|]. simpl in *.
    apply andb_prop in Hws as [Hc Hws]. rewrite (space_not_percent c Hc).
    rewrite Hc in *. simpl. by injection Hsp as ->.
  - by rewrite Hsp.
  - by rewrite Hsp.
Qed.

Section FormatterFacts.

Variable unicode_decimal : Z → bool.

Lemma digits_then_Some s acc g1 g2 :
  digits_then unicode_decimal acc s = Some (g1, g2) →
  ∃ tok pct ws rest, numeric_lead unicode_decimal s tok pct ws rest
                     ∧ g1 = rev acc ++ tok ++ pct.
Proof.
  revert acc. induction s as [|c s IH]; intros acc; simpl; [done|].
  destruct (is_digit unicode_decimal c) eqn:Hc; [|done].
  destruct (digits_then unicode_decimal (c :: acc) s) as [[g1' g2']|] eqn:E.
  - intros [= -> ->]. apply IH in E as (tok & pct & ws & rest & H & ->).
    destruct H as (-> & Htok & Hdig & Hpct & Hws & Hsp).
    exists (c :: tok), pct, ws, rest. split.
    + repeat split; try done. simpl. by rewrite Hc, Hdig.
    + simpl. by rewrite <- app_assoc.
  - destruct (percent_then s) as [[pct body]|] eqn:Ep; [|done].
    intros [= <- <-]. apply percent_then_Some in Ep as (ws & rest & -> & Hpct & Hws & Hsp).
    exists [c], pct, ws, rest. split.
    + repeat split; try done. simpl. by rewrite Hc.
    + simpl. by rewrite <- app_assoc.
Qed.

Hypothesis decimal_not_space : ∀ c, unicode_decimal c = true → Char.is_space c = false.
Hypothesis decimal_not_percent : ∀ c, unicode_decimal c = true → Char.is_percent c = false.

Lemma digit_not_space c : is_digit unicode_decimal c = true → Char.is_space c = false.
Proof.
  unfold is_digit. intros [H|H]%orb_prop; [by apply decimal_not_space|].
  revert H. unfold Char.is_arabic_indic_digit, Char.is_space. lia.
Qed.

Lemma digit_not_percent c : is_digit unicode_decimal c = true → Char.is_percent c = false.
Proof.
  unfold is_digit. intros [H|H]%orb_prop; [by apply decimal_not_percent|].
  revert H. unfold Char.is_arabic_indic_digit, Char.is_percent, Char.percent, Char.arabic_percent.
  lia.
Qed.

(** After the last digit the digits stop: what follows begins with a
    percent sign or with white space. *)
Lemma digits_then_stop acc pct ws rest :
  (pct = [] ∨ pct = [Char.percent] ∨ pct = [Char.arabic_percent]) →
  ws ≠ [] → forallb Char.is_space ws = true →
  digits_then unicode_decimal acc (pct ++ ws ++ rest) = None.
Proof.
  intros Hpct Hne Hws.
  assert (∃ c s, pct ++ ws ++ rest = c :: s ∧ is_digit unicode_decimal c = false)
    as (c & s & -> & Hc).
  { destruct Hpct as [->|[->| ->]]; simpl.
    - destruct ws as [|c ws]; [done|]. exists c, (ws ++ rest). split; [done|].
      simpl in Hws. apply andb_prop in Hws as [Hc _].
      destruct (is_digit unicode_decimal c) eqn:E; [|done].
      apply digit_not_space in E. congruence.
    - eexists _, _. split; [done|].
      destruct (is_digit unicode_decimal Char.percent) eqn:E; [|done].
      by apply digit_not_percent in E.
    - eexists _, _. split; [done|].
      destruct (is_digit unicode_decimal Char.arabic_percent) eqn:E; [|done].
      by apply digit_not_percent in E. }
  simpl. by rewrite Hc.
Qed.

Lemma digits_then_lead acc tok pct ws body :
  numeric_lead unicode_decimal (tok ++ pct ++ ws ++ body) tok pct ws body →
  lstrip body = body → Char.newline ∉ body →
  digits_then unicode_decimal acc (tok ++ pct ++ ws ++ body)
  = Some (rev acc ++ tok ++ pct, body).
Proof.
  intros (_ & Htok & Hdig & Hpct & Hne & Hws) Hbody Hnl.
  revert acc. induction tok as [|c tok IH]; intros acc; [done|].
  simpl in Hdig. apply andb_prop in Hdig as [Hc Hdig]. simpl. rewrite Hc.
  destruct tok as [|c' tok].
  - simpl. rewrite digits_then_stop, percent_then_app by done. simpl.
    by rewrite <- app_assoc.
  - rewrite IH by done. simpl. by rewrite <- !app_assoc.
Qed.



Lemma format_answer_numeric txt answer num_part ans_main d tok :
  numeric_answer unicode_decimal answer = Some (num_part, ans_main) →
  num_part = d :: tok → Char.is_space d = false →
  format_answer unicode_decimal txt answer
  = rstrip (num_part ++ [Char.space] ++ prefix_for txt ++ ans_main).
Proof.
  intros Hm -> Hd. unfold format_answer. rewrite Hm. unfold strip.
  by rewrite <- app_comm_cons, lstrip_cons_keep.
Qed.

Lemma format_answer_plain txt answer :
  numeric_answer unicode_decimal answer = None →
  format_answer unicode_decimal txt answer = rstrip (prefix_for txt ++ answer).
Proof.
  intros Hm. unfold format_answer. rewrite Hm. unfold strip. fold (prefix_for txt).
  destruct (prefix_for_head txt) as (c & p & Hp & Hc). rewrite Hp. simpl. by rewrite Hc.
Qed.

End FormatterFacts.

(** ** More on the region selector *)

Lemma on_drag_keeps o x y : sel (on_drag o x y) = sel o.
Proof. unfold on_drag. by repeat case_match. Qed.

Lemma on_drag_open o x y : destroyed (on_drag o x y) = destroyed o.
Proof. unfold on_drag. by repeat case_match. Qed.

Lemma handle_pending o p e :
  holds o p → pending e = true →
  holds (handle o e) (match e with ButtonPress x y => Some (x, y) | _ => p end).
Proof.
  intros (Hd & Hx1 & Hy1 & Hx2 & Hy2). destruct e as [x y|x y|x y|]; simpl; try done; intros _.
  - unfold holds. simpl. by simplify_map_eq.
  - unfold holds. by rewrite on_drag_keeps, on_drag_open.
Qed.

Lemma wait_window_pending pre o p :
  forallb pending pre = true → holds o p →
  ∃ o', (∀ rest, wait_window o (pre ++ rest) = wait_window o' rest)
        ∧ holds o' (match last_press pre with Some q => Some q | None => p end).
Proof.
  revert o p. induction pre as [|e pre IH]; intros o p Hpre Ho; simpl in *.
  - by exists o.
  - apply andb_prop in Hpre as [He Hpre].
    destruct (IH _ _ Hpre (handle_pending o p e Ho He)) as (o' & Hrun & Ho').
    exists o'. split.
    + intros rest. destruct Ho as [-> _]. apply Hrun.
    + destruct e; try done. by destruct (last_press pre).
Qed.

Lemma holds_initial : holds {| sel := ∅; rect := None; destroyed := false |} None.
Proof. by repeat split. Qed.

Lemma select_region_after_pending pre rest :
  forallb pending pre = true →
  ∃ o, holds o (last_press pre)
       ∧ select_region (pre ++ rest)
         = o' ← wait_window o rest;
           Some match sel o' !! "x1", sel o' !! "y1", sel o' !! "x2", sel o' !! "y2" with
                | Some x1, Some y1, Some x2, Some y2 =>
                    Some (Z.min x1 x2, Z.min y1 y2, Z.max x1 x2, Z.max y1 y2)
                | _, _, _, _ => None
                end.
Proof.
  intros Hpre. destruct (wait_window_pending pre _ None Hpre holds_initial) as (o & Hrun & Ho).
  exists o. split; [by destruct (last_press pre)|]. unfold select_region. by rewrite Hrun.
Qed.

(** X1: as long as the button was neither released nor Escape pressed, the
    selector has not returned. *)
Theorem select_region_waits events :
  forallb pending events = true → select_region events = None.
Proof.
  intros H. destruct (select_region_after_pending events [] H) as (o & (Hd & _) & Heq).
  rewrite app_nil_r in Heq. rewrite Heq. simpl. by rewrite Hd.
Qed.

Lemma select_region_waits_witness :
  forallb pending [ButtonPress 5 5; Motion 9 9; ButtonPress 1 2; Motion 3 4] = true
  ∧ select_region [ButtonPress 5 5; Motion 9 9; ButtonPress 1 2; Motion 3 4] = None.
Proof.
  split; [reflexivity|].
  exact (select_region_waits [ButtonPress 5 5; Motion 9 9; ButtonPress 1 2; Motion 3 4] eq_refl).
Defined.

(** X2: Escape cancels the selection whatever was pressed or dragged before
    it, and whatever comes after it: the selector returns no box. *)
Theorem select_region_escape pre later :
  forallb pending pre = true → select_region (pre ++ Escape :: later) = Some None.
Proof.
  intros H. destruct (select_region_after_pending pre (Escape :: later) H)
    as (o & (Hd & _) & ->).
  simpl. rewrite Hd. by rewrite wait_window_destroyed.
Qed.

Lemma select_region_escape_witness :
  forallb pending [ButtonPress 5 5; Motion 9 9] = true
  ∧ select_region ([ButtonPress 5 5; Motion 9 9] ++ Escape :: [ButtonRelease 7 7]) = Some None.
Proof.
  split; [reflexivity|].
  exact (select_region_escape [ButtonPress 5 5; Motion 9 9] [ButtonRelease 7 7] eq_refl).
Defined.

(** X3: the first release ends the selection, and the box spans the point
    of the last press before it and the point of the release; with no
    press before it the selector returns no box.  What comes after the
    release is not looked at. *)
Theorem select_region_release pre c d later :
  forallb pending pre = true →
  select_region (pre ++ ButtonRelease c d :: later)
  = Some match last_press pre with
         | Some (a, b) => Some (Z.min a c, Z.min b d, Z.max a c, Z.max b d)
         | None => None
         end.
Proof.
  intros H. destruct (select_region_after_pending pre (ButtonRelease c d :: later) H)
    as (o & (Hd & Hx1 & Hy1 & Hx2 & Hy2) & ->).
  simpl. rewrite Hd. rewrite wait_window_destroyed by done. simpl.
  rewrite !lookup_insert_ne, Hx1, Hy1 by done. simplify_map_eq.
  by destruct (last_press pre) as [[a b]|].
Qed.

Lemma select_region_release_witness :
  forallb pending [ButtonPress 50 50; Motion 60 60; ButtonPress 9 8; Motion 3 4] = true
  ∧ select_region ([ButtonPress 50 50; Motion 60 60; ButtonPress 9 8; Motion 3 4]
                   ++ ButtonRelease 1 20 :: [Escape])
    = Some (Some (1, 8, 9, 20)%Z)
  ∧ select_region ([Motion 60 60] ++ ButtonRelease 1 20 :: []) = Some None.
Proof.
  split; [reflexivity|]. split.
  - exact (select_region_release [ButtonPress 50 50; Motion 60 60; ButtonPress 9 8; Motion 3 4]
             1 20 [Escape] eq_refl)%Z.
  - exact (select_region_release [Motion 60 60] 1 20 [] eq_refl)%Z.
Defined.

Lemma fold_handle_motions (moves : list (Z * Z)) o :
  sel (fold_left handle ((λ p, Motion p.1 p.2) <$> moves) o) = sel o
  ∧ (rect o = None → rect (fold_left handle ((λ p, Motion p.1 p.2) <$> moves) o) = None)
  ∧ (is_Some (rect o) → is_Some (rect (fold_left handle ((λ p, Motion p.1 p.2) <$> moves) o))).
Proof.
  revert o. induction moves as [|[x y] moves IH]; intros o; [done|].
  rewrite fmap_cons. simpl. destruct (IH (on_drag o x y)) as (-> & Hnone & Hsome).
  split; [apply on_drag_keeps|]. split.
  - intros Ho. apply Hnone. unfold on_drag. by rewrite Ho.
  - intros Ho. apply Hsome. unfold on_drag. by repeat case_match.
Qed.

(** X4: while the button is held, the rectangle drawn on the overlay goes
    from the press point to the pointer, as it is (no corner is swapped);
    pointer motion before any press draws nothing. *)
Theorem live_rectangle (moves : list (Z * Z)) :
  (∀ a b x y,
     rect (fold_left handle
             (ButtonPress a b :: ((λ p, Motion p.1 p.2) <$> moves) ++ [Motion x y])
             {| sel := ∅; rect := None; destroyed := false |})
     = Some (a, b, x, y))
  ∧ rect (fold_left handle ((λ p, Motion p.1 p.2) <$> moves)
            {| sel := ∅; rect := None; destroyed := false |}) = None.
Proof.
  split.
  - intros a b x y. simpl. rewrite fold_left_app. simpl.
    set (o := on_press _ a b).
    destruct (fold_handle_motions moves o) as (Hsel & _ & Hsome).
    destruct Hsome as [r Hr]; [by eexists|].
    unfold on_drag. rewrite Hr, Hsel. subst o. simpl. by simplify_map_eq.
  - by apply fold_handle_motions.
Qed.

(** ** More on [strip] *)

Lemma lstrip_idem s : lstrip (lstrip s) = lstrip s.
Proof.
  destruct (lstrip s) as [|c t] eqn:E; [done|].
  apply lstrip_cons_keep. by apply (lstrip_head s c t).
Qed.

Lemma lstrip_snoc_keep s c : Char.is_space c = false → lstrip (s ++ [c]) = lstrip s ++ [c].
Proof.
  intros Hc. induction s as [|d s IH]; simpl; [by rewrite Hc|].
  by destruct (Char.is_space d).
Qed.

Lemma rstrip_cons_keep c s : Char.is_space c = false → rstrip (c :: s) = c :: rstrip s.
Proof.
  intros Hc. unfold rstrip. simpl. rewrite lstrip_snoc_keep by done.
  by rewrite rev_app_distr.
Qed.

Lemma rstrip_idem s : rstrip (rstrip s) = rstrip s.
Proof. unfold rstrip. by rewrite rev_involutive, lstrip_idem. Qed.

Lemma strip_idem s : strip (strip s) = strip s.
Proof.
  unfold strip. destruct (lstrip s) as [|c t] eqn:E; [done|].
  assert (Char.is_space c = false) as Hc by (by apply (lstrip_head s c t)).
  rewrite rstrip_cons_keep by done. rewrite lstrip_cons_keep by done.
  by rewrite rstrip_cons_keep, rstrip_idem.
Qed.

Lemma strip_first s c t : strip s = c :: t → Char.is_space c = false.
Proof.
  unfold strip. destruct (lstrip s) as [|d u] eqn:E; [done|].
  assert (Char.is_space d = false) as Hd by (by apply (lstrip_head s d u)).
  rewrite rstrip_cons_keep by done. by intros [= <- _].
Qed.

Lemma strip_snoc_keep s c : Char.is_space c = false → strip (s ++ [c]) = lstrip s ++ [c].
Proof.
  intros Hc. unfold strip. rewrite lstrip_snoc_keep by done. by apply rstrip_snoc_keep.
Qed.

Lemma lstrip_elem s c : c ∈ lstrip s → c ∈ s.
Proof.
  destruct (lstrip_suffix s) as (ws & Hs & _). intros H. rewrite Hs.
  apply elem_of_app. by right.
Qed.

(** ** More on [extract_questions] *)

Lemma findall_from_matched_at pat skip s m :
  m ∈ Re.findall_from pat skip s → ∃ pre post, s = pre ++ post ∧ pat post = Some m.
Proof.
  revert skip. induction s as [|c s IH]; intros skip; simpl.
  - by intros ?%elem_of_nil.
  - assert (∀ k, m ∈ Re.findall_from pat k s →
                 ∃ pre post, c :: s = pre ++ post ∧ pat post = Some m) as Hs.
    { intros k (pre & post & -> & Hm)%IH. by exists (c :: pre), post. }
    destruct skip as [|k]; [|apply Hs].
    destruct (pat (c :: s)) as [m'|] eqn:Hm; [|apply Hs].
    intros [->|H]%elem_of_cons; [by exists [], (c :: s)|by eapply Hs].
Qed.

(** X5: [extract_questions] never returns a string twice, and every string
    it returns stands in the text as it is. *)
Theorem extract_questions_occur txt :
  NoDup (extract_questions txt)
  ∧ ∀ q, q ∈ extract_questions txt → ∃ pre post, txt = pre ++ q ++ post.
Proof.
  split; [apply extract_questions_NoDup|].
  intros q. unfold extract_questions.
  rewrite fromkeys_first_occurrences, first_occurrences_elem.
  intros [(m & -> & Hm)%list_elem_of_fmap _].
  apply findall_from_matched_at in Hm as (pre & post & -> & [[rest ->] Hwf]%latin_question_Some).
  rewrite well_formed_strip by done. by exists pre, rest.
Qed.

Lemma extract_questions_occur_witness :
  str "Who is it?" ∈ extract_questions (str "well. Who is it? Who is it?")
  ∧ ∃ pre post, str "well. Who is it? Who is it?" = pre ++ str "Who is it?" ++ post.
Proof.
  assert (str "Who is it?" ∈ extract_questions (str "well. Who is it? Who is it?")) as H
    by (vm_compute; apply list_elem_of_here).
  split; [exact H|]. exact (proj2 (extract_questions_occur _) _ H).
Defined.

(** X6: a question that [extract_questions] returned is extracted again
    from itself, alone. *)
Theorem extract_questions_again txt q :
  q ∈ extract_questions txt → extract_questions q = [q].
Proof.
  intros [s [_ Hwf]%latin_question_Some]%extract_questions_elem.
  unfold extract_questions. rewrite <- (app_nil_r q) at 1.
  rewrite findall_sentence by done. unfold Re.findall. simpl.
  by rewrite well_formed_strip by done.
Qed.

Lemma extract_questions_again_witness :
  str "Who is it?" ∈ extract_questions (str "well. Who is it? Abc?")
  ∧ extract_questions (str "Who is it?") = [str "Who is it?"].
Proof.
  assert (str "Who is it?" ∈ extract_questions (str "well. Who is it? Abc?")) as H
    by (vm_compute; apply list_elem_of_here).
  split; [exact H|]. exact (extract_questions_again _ _ H).
Defined.

Lemma first_occurrences_length earlier l : length (first_occurrences earlier l) ≤ length l.
Proof.
  revert earlier. induction l as [|q l IH]; intros earlier; simpl; [done|].
  rewrite length_app. specialize (IH (q :: earlier)).
  destruct (decide (q ∈ earlier)); simpl; lia.
Qed.

Lemma findall_from_cons pat c s :
  Re.findall_from pat 0 (c :: s)
  = match pat (c :: s) with
    | Some m => m :: Re.findall_from pat (pred (length m)) s
    | None => Re.findall_from pat 0 s
    end.
Proof. done. Qed.

Lemma findall_latin_length skip s :
  length (Re.findall_from Re.latin_question skip s)
  ≤ length (filter (λ c, c = Char.qmark) (drop skip s)).
Proof.
  revert skip. induction s as [|c s IH]; intros skip.
  - by destruct skip.
  - destruct skip as [|k]; [|apply IH].
    rewrite findall_from_cons, drop_0, filter_cons.
    destruct (Re.latin_question (c :: s)) as [m|] eqn:Hm.
    + apply latin_question_Some in Hm as [[rest Heq] Hwf].
      apply well_formed_inv in Hwf as (c0 & body & -> & _ & _ & _).
      injection Heq as <- ->.
      specialize (IH (length (body ++ [Char.qmark]))).
      rewrite drop_app_length in IH.
      rewrite filter_app, filter_app, filter_cons_True by done.
      simpl. rewrite length_app in *. simpl in *.
      destruct (decide (c = Char.qmark)); simpl; rewrite !length_app; simpl; lia.
    + specialize (IH 0). rewrite drop_0 in IH.
      destruct (decide (c = Char.qmark)); simpl; lia.
Qed.

(** X7: [extract_questions] returns at most as many questions as the text
    has question marks. *)
Theorem extract_questions_count txt :
  length (extract_questions txt) ≤ length (filter (λ c, c = Char.qmark) txt).
Proof.
  unfold extract_questions. rewrite fromkeys_first_occurrences.
  etrans; [apply first_occurrences_length|]. rewrite length_fmap.
  apply (findall_latin_length 0 txt).
Qed.

(** ** More on [extract_question] *)

Lemma search_absent term need txt :
  term ∉ txt → Re.search (Re.run_until term need) txt = None.
Proof.
  induction txt as [|c txt IH]; simpl; [done|].
  intros [Hc Htxt]%not_elem_of_cons. rewrite decide_False by done.
  by rewrite run_until_absent, IH.
Qed.

Lemma search_at_start term run rest :
  term ∉ run → 2 ≤ length run →
  Re.search (Re.run_until term 2) (run ++ term :: rest) = Some (run ++ [term]).
Proof.
  intros Hrun Hlen. destruct run as [|c run]; [simpl in Hlen; lia|].
  change (Re.search (Re.run_until term 2) ((c :: run) ++ term :: rest))
    with (match Re.run_until term 2 ((c :: run) ++ term :: rest) with
          | Some m => Some m
          | None => Re.search (Re.run_until term 2) (run ++ term :: rest)
          end).
  by rewrite run_until_app.
Qed.

Lemma blank_without c txt :
  forallb Char.is_space txt = true → Char.is_space c = false → c ∉ txt.
Proof.
  rewrite forallb_forall. intros H Hc Hin%list_elem_of_In. apply H in Hin. congruence.
Qed.

(** X8: the question [extract_question] returns is trimmed: trimming it
    again changes nothing, and it neither begins nor ends with white
    space. *)
Theorem extract_question_trimmed txt :
  strip (extract_question txt) = extract_question txt
  ∧ (∀ c rest, extract_question txt = c :: rest → Char.is_space c = false)
  ∧ (∀ rest c, extract_question txt = rest ++ [c] → Char.is_space c = false).
Proof.
  assert (∃ s, extract_question txt = strip s) as [s Hs].
  { unfold extract_question. repeat case_match; by eexists. }
  rewrite Hs. split; [apply strip_idem|]. split.
  - intros c rest. apply strip_first.
  - intros rest c. apply strip_last, strip_idem.
Qed.

(** X9: when the first Arabic question mark of the text has at least two
    characters before it, [extract_question] returns the text from its
    very start to that mark, less the white space in front, whatever Latin
    question marks it goes over; a text without an Arabic question mark is
    cut so at its first Latin question mark. *)
Theorem extract_question_from_start run rest :
  2 ≤ length run →
  (Char.arabic_qmark ∉ run →
   extract_question (run ++ Char.arabic_qmark :: rest) = lstrip run ++ [Char.arabic_qmark])
  ∧ (Char.qmark ∉ run → Char.arabic_qmark ∉ run ++ Char.qmark :: rest →
     extract_question (run ++ Char.qmark :: rest) = lstrip run ++ [Char.qmark]).
Proof.
  intros Hlen. unfold extract_question, Re.arabic_run, Re.latin_run. split.
  - intros Hrun. rewrite search_at_start by done. by apply strip_snoc_keep.
  - intros Hrun Har. rewrite search_absent, search_at_start by done.
    by apply strip_snoc_keep.
Qed.

Lemma extract_question_from_start_witness :
  2 ≤ length (str " Why? ") ∧ Char.arabic_qmark ∉ str " Why? "
  ∧ extract_question (str " Why? " ++ Char.arabic_qmark :: str " ok")
    = str "Why? " ++ [Char.arabic_qmark].
Proof.
  assert (Char.arabic_qmark ∉ str " Why? ") as H
    by (apply (bool_decide_unpack _); by vm_compute).
  assert (2 ≤ length (str " Why? ")) as Hlen by (vm_compute; lia).
  split; [exact Hlen|]. split; [exact H|].
  exact (proj1 (extract_question_from_start (str " Why? ") (str " ok") Hlen) H).
Defined.

(** X10: whenever the text has a run for the Arabic question mark, the
    question returned ends with that mark and has it nowhere else, also
    when a Latin question comes first in the text. *)
Theorem extract_question_arabic_first txt :
  has_run Char.arabic_qmark txt →
  ∃ body, extract_question txt = body ++ [Char.arabic_qmark]
          ∧ Char.arabic_qmark ∉ body.
Proof.
  intros Hrun. unfold extract_question, Re.arabic_run.
  destruct (Re.search (Re.run_until Char.arabic_qmark 2) txt) as [m|] eqn:E.
  - apply search_first_run in E as (_ & _ & (run & -> & _ & Hnot) & _).
    exists (lstrip run). split; [by apply strip_snoc_keep|].
    intros H. by apply Hnot, lstrip_elem.
  - by apply search_no_run in E.
Qed.

Lemma extract_question_arabic_first_witness :
  has_run Char.arabic_qmark (str "Who? " ++ [0x645; 0x646; 0x61F]%Z)
  ∧ ∃ body, extract_question (str "Who? " ++ [0x645; 0x646; 0x61F]%Z)
            = body ++ [Char.arabic_qmark] ∧ Char.arabic_qmark ∉ body.
Proof.
  assert (has_run Char.arabic_qmark (str "Who? " ++ [0x645; 0x646; 0x61F]%Z)) as H.
  { exists 0, (str "Who? " ++ [0x645; 0x646; 0x61F]%Z). split; [by exists [], []|].
    exists (str "Who? " ++ [0x645; 0x646]%Z). split; [done|]. split; [vm_compute; lia|].
    apply (bool_decide_unpack _). by vm_compute. }
  split; [exact H|]. exact (extract_question_arabic_first _ H).
Defined.

Lemma extract_question_of_blank txt :
  forallb Char.is_space txt = true → extract_question txt = [].
Proof.
  intros H. unfold extract_question, Re.arabic_run, Re.latin_run.
  rewrite !search_absent by (by apply blank_without). by apply strip_nil_iff.
Qed.

(** X11: on an OCR text of white space only (an empty one too) the GUI
    worker, with the key set, still queries the service, with the empty
    question. *)
Theorem gui_asks_empty_question unicode_decimal e txt rq :
  key_missing e = false → forallb Char.is_space txt = true →
  (Gui.run_ocr_and_answer unicode_decimal e txt rq).2 = rq ++ [[]].
Proof.
  intros Hkey Hblank. unfold Gui.run_ocr_and_answer, Gui.query_openai, create.
  rewrite Hkey, extract_question_of_blank by done.
  by destruct (service e (length rq) []).
Qed.

Lemma gui_asks_empty_question_witness :
  key_missing (steady (str "Hello")) = false
  ∧ forallb Char.is_space [Char.newline; 12%Z] = true
  ∧ (Gui.run_ocr_and_answer ascii_decimal (steady (str "Hello")) [Char.newline; 12%Z] []).2
    = [[]].
Proof.
  split; [reflexivity|]. split; [reflexivity|].
  exact (gui_asks_empty_question ascii_decimal (steady (str "Hello"))
           [Char.newline; 12%Z] [] eq_refl eq_refl).
Defined.

(** ** More on the answer formatter *)

Lemma lstrip_before s c t :
  Char.is_space c = false → ∃ s', lstrip (s ++ c :: t) = s' ++ c :: t.
Proof.
  intros Hc. induction s as [|d s [s' IH]]; simpl.
  - exists []. by rewrite Hc.
  - destruct (Char.is_space d); [by exists s'|by exists (d :: s)].
Qed.

Lemma rstrip_after s c t :
  Char.is_space c = false → ∃ t', rstrip (s ++ c :: t) = s ++ c :: t'.
Proof.
  intros Hc. unfold rstrip. rewrite rev_app_distr. simpl. rewrite <- app_assoc. simpl.
  destruct (lstrip_before (rev t) c (rev s) Hc) as [t' ->].
  exists (rev t'). rewrite rev_app_distr. simpl. by rewrite rev_involutive, <- app_assoc.
Qed.

Lemma strip_around s c mid d t :
  Char.is_space c = false → Char.is_space d = false →
  ∃ s' t', strip (s ++ (c :: mid ++ [d]) ++ t) = s' ++ (c :: mid ++ [d]) ++ t'.
Proof.
  intros Hc Hd. unfold strip. simpl. rewrite <- app_assoc. simpl.
  destruct (lstrip_before s c (mid ++ d :: t) Hc) as [s' ->].
  replace (s' ++ c :: mid ++ d :: t) with ((s' ++ c :: mid) ++ d :: t)
    by (by rewrite <- app_assoc).
  destruct (rstrip_after (s' ++ c :: mid) d t Hd) as [t' ->].
  exists s', t'. by rewrite <- !app_assoc.
Qed.

Lemma prefix_for_core txt :
  ∃ c mid d, prefix_for txt = (c :: mid ++ [d]) ++ [Char.space]
             ∧ rstrip (prefix_for txt) = c :: mid ++ [d]
             ∧ Char.is_space c = false ∧ Char.is_space d = false.
Proof.
  unfold prefix_for. destruct (is_arabic txt).
  - by exists 0x627%Z, [0x644; 0x625; 0x62C; 0x627; 0x628; 0x629]%Z, 58%Z.
  - by exists 65%Z, (str "nswer"), 58%Z.
Qed.

(** X12: the formatted answer is trimmed, and it always holds the prefix
    chosen for the OCR text, up to the colon: it is never empty, whatever
    the answer. *)
Theorem format_answer_holds_prefix unicode_decimal txt answer :
  strip (format_answer unicode_decimal txt answer) = format_answer unicode_decimal txt answer
  ∧ ∃ before after,
      format_answer unicode_decimal txt answer = before ++ rstrip (prefix_for txt) ++ after.
Proof.
  unfold format_answer. fold (prefix_for txt). split.
  - destruct (match numeric_answer unicode_decimal answer with
              | Some groups => groups | None => ([], answer) end) as [num_part ans_main].
    apply strip_idem.
  - destruct (match numeric_answer unicode_decimal answer with
              | Some groups => groups | None => ([], answer) end) as [num_part ans_main].
    destruct (prefix_for_core txt) as (c & mid & d & -> & -> & Hc & Hd).
    destruct (strip_around (num_part ++ [Char.space]) c mid d (Char.space :: ans_main) Hc Hd)
      as (s' & t' & H).
    exists s', t'. rewrite <- H. f_equal. by rewrite <- !app_assoc.
Qed.

(** X13: an answer without white space, a bare number or percentage among
    them, is not split: the output is the prefix and the answer (the
    prefix without its last space when the answer is empty). *)
Theorem format_answer_one_word unicode_decimal txt answer :
  forallb (λ c, negb (Char.is_space c)) answer = true →
  format_answer unicode_decimal txt answer = rstrip (prefix_for txt ++ answer)
  ∧ (answer ≠ [] → format_answer unicode_decimal txt answer = prefix_for txt ++ answer).
Proof.
  intros Hword.
  assert (numeric_answer unicode_decimal answer = None) as Hm.
  { unfold numeric_answer.
    destruct (digits_then unicode_decimal [] answer) as [[g1 g2]|] eqn:E; [|done].
    apply digits_then_Some in E as (tok & pct & ws & rest & H & _).
    destruct H as (-> & _ & _ & _ & Hne & Hws). destruct ws as [|w ws]; [done|].
    rewrite !forallb_app in Hword. simpl in *.
    apply andb_prop in Hws as [Hw _].
    do 2 apply andb_prop in Hword as [_ Hword]. apply andb_prop in Hword as [Hw' _].
    rewrite Hw in Hw'. done. }
  rewrite format_answer_plain by done. split; [done|]. intros Hne.
  destruct (exists_last Hne) as (answer' & z & ->).
  rewrite app_assoc. apply rstrip_snoc_keep.
  rewrite forallb_app in Hword. simpl in Hword.
  apply andb_prop in Hword as [_ Hz]. by destruct (Char.is_space z).
Qed.

Lemma format_answer_one_word_witness :
  forallb (λ c, negb (Char.is_space c)) (str "42%") = true
  ∧ format_answer ascii_decimal (str "How many?") (str "42%") = str "Answer: 42%".
Proof.
  split; [reflexivity|].
  exact (proj1 (format_answer_one_word ascii_decimal (str "How many?") (str "42%") eq_refl)).
Defined.

Lemma rest_of_line_split s :
  Char.newline ∉ rest_of_line s ∧ ∃ dropped, s = rest_of_line s ++ dropped.
Proof.
  induction s as [|c s [IH1 [dropped IH2]]]; simpl.
  - split; [apply not_elem_of_nil|by exists []].
  - destruct (decide (c = Char.newline)).
    + split; [apply not_elem_of_nil|by exists (c :: s)].
    + split; [by apply not_elem_of_cons|]. exists dropped. simpl. by f_equal.
Qed.

Lemma spaces_then_line_lead ws body :
  ws ≠ [] → forallb Char.is_space ws = true → lstrip body = body →
  spaces_then_line (ws ++ body) = Some (rest_of_line body).
Proof.
  destruct ws as [|c ws]; [done|]. simpl. intros _ [-> Hws]%andb_prop Hbody.
  by rewrite lstrip_spaces, Hbody.
Qed.

Lemma percent_then_lead pct ws body :
  (pct = [] ∨ pct = [Char.percent] ∨ pct = [Char.arabic_percent]) →
  ws ≠ [] → forallb Char.is_space ws = true → lstrip body = body →
  percent_then (pct ++ ws ++ body) = Some (pct, rest_of_line body).
Proof.
  intros Hpct Hne Hws Hbody.
  pose proof (spaces_then_line_lead ws body Hne Hws Hbody) as Hsp.
  destruct Hpct as [->|[->| ->]]; simpl.
  - destruct ws as [|c ws]; [done|]. simpl in *.
    apply andb_prop in Hws as [Hc Hws]. rewrite (space_not_percent c Hc).
    rewrite Hc in *. simpl. by injection Hsp as ->.
  - by rewrite Hsp.
  - by rewrite Hsp.
Qed.

Section FormatterLines.

Variable unicode_decimal : Z → bool.
Hypothesis decimal_not_space : ∀ c, unicode_decimal c = true → Char.is_space c = false.
Hypothesis decimal_not_percent : ∀ c, unicode_decimal c = true → Char.is_percent c = false.

Lemma digits_then_first_line acc tok pct ws body :
  numeric_lead unicode_decimal (tok ++ pct ++ ws ++ body) tok pct ws body →
  lstrip body = body →
  digits_then unicode_decimal acc (tok ++ pct ++ ws ++ body)
  = Some (rev acc ++ tok ++ pct, rest_of_line body).
Proof.
  intros (_ & Htok & Hdig & Hpct & Hne & Hws) Hbody.
  revert acc. induction tok as [|c tok IH]; intros acc; [done|].
  simpl in Hdig. apply andb_prop in Hdig as [Hc Hdig]. simpl. rewrite Hc.
  destruct tok as [|c' tok].
  - simpl. rewrite (digits_then_stop unicode_decimal decimal_not_space decimal_not_percent)
      by done.
    rewrite percent_then_lead by done. simpl. by rewrite <- app_assoc.
  - rewrite IH by done. simpl. by rewrite <- !app_assoc.
Qed.

(** X14: when the answer begins with a numeric token and white space, the
    output is the token, a space, the prefix and the first line of what
    follows the white space, with white space at the end removed: what
    follows from the first line feed on is dropped. *)
Theorem format_answer_first_line txt answer tok pct ws body :
  numeric_lead unicode_decimal answer tok pct ws body → lstrip body = body →
  format_answer unicode_decimal txt answer
  = rstrip ((tok ++ pct) ++ [Char.space] ++ prefix_for txt ++ rest_of_line body)
  ∧ Char.newline ∉ rest_of_line body
  ∧ ∃ dropped, body = rest_of_line body ++ dropped.
Proof.
  intros Hlead Hbody. split; [|apply rest_of_line_split].
  pose proof Hlead as (-> & Htok & Hdig & _).
  destruct tok as [|d tok]; [done|].
  assert (Char.is_space d = false) as Hd.
  { simpl in Hdig. apply andb_prop in Hdig as [Hd _].
    by apply (digit_not_space unicode_decimal decimal_not_space). }
  apply (format_answer_numeric unicode_decimal txt _ ((d :: tok) ++ pct) _ d (tok ++ pct));
    try done.
  unfold numeric_answer. by rewrite (digits_then_first_line [] (d :: tok) pct ws body).
Qed.

End FormatterLines.

Lemma format_answer_first_line_witness :
  (∀ c, ascii_decimal c = true → Char.is_space c = false)
  ∧ (∀ c, ascii_decimal c = true → Char.is_percent c = false)
  ∧ numeric_lead ascii_decimal (str "3 apples" ++ [Char.newline] ++ str "and pears")
      (str "3") [] (str " ") (str "apples" ++ [Char.newline] ++ str "and pears")
  ∧ format_answer ascii_decimal (str "How many?")
      (str "3 apples" ++ [Char.newline] ++ str "and pears")
    = str "3 Answer: apples".
Proof.
  assert (∀ c, ascii_decimal c = true → Char.is_space c = false) as Hsp
    by (intros c; unfold ascii_decimal, Char.is_space; lia).
  assert (∀ c, ascii_decimal c = true → Char.is_percent c = false) as Hpct
    by (intros c; unfold ascii_decimal, Char.is_percent, Char.percent, Char.arabic_percent; lia).
  assert (numeric_lead ascii_decimal (str "3 apples" ++ [Char.newline] ++ str "and pears")
            (str "3") [] (str " ") (str "apples" ++ [Char.newline] ++ str "and pears")) as Hlead
    by (repeat split; try done; by left).
  split; [exact Hsp|]. split; [exact Hpct|]. split; [exact Hlead|].
  exact (proj1 (format_answer_first_line ascii_decimal Hsp Hpct (str "How many?")
                  _ _ _ _ _ Hlead eq_refl)).
Defined.

(** ** The three answer clients *)

(** X15: the command line tool and the snap tool ask alike: for the same
    environment, question and earlier requests they send the same request
    or none and return the same reply or both fail, with their own message
    only when the key is missing.  A reply that any of the three clients
    returns is trimmed; those two return it only with the key set, as the
    content the service gave, trimmed. *)
Theorem replies_are_trimmed e q rq :
  (Snap.ask_ai e q rq).2 = (Cli.query_openai e q rq).2
  ∧ (key_missing e = false → Snap.ask_ai e q rq = Cli.query_openai e q rq)
  ∧ (∀ reply, (Cli.query_openai e q rq).1 = Returned reply
              ↔ (Snap.ask_ai e q rq).1 = Returned reply)
  ∧ (∀ reply, (Cli.query_openai e q rq).1 = Returned reply →
              key_missing e = false
              ∧ (∃ c, service e (length rq) q = Content c ∧ reply = strip c)
              ∧ strip reply = reply)
  ∧ (∀ reply, (Gui.query_openai e q rq).1 = Returned reply → strip reply = reply)
  ∧ (∀ reply, (Snap.ask_ai e q rq).1 = Returned reply → strip reply = reply).
Proof.
  unfold Gui.query_openai, Cli.query_openai, Snap.ask_ai, create.
  destruct (key_missing e); [by repeat split|].
  destruct (service e (length rq) q) as [c|msg|msg]; simpl;
    repeat split; try done; intros; simplify_eq; try done; try apply strip_idem.
  by exists c.
Qed.

Lemma replies_are_trimmed_witness :
  (Cli.query_openai (steady (str " Paris ")) (str "Capital?") []).1 = Returned (str "Paris")
  ∧ strip (str "Paris") = str "Paris".
Proof.
  split; [reflexivity|].
  exact (proj2 (proj2 (proj1 (proj2 (proj2 (proj2
           (replies_are_trimmed (steady (str " Paris ")) (str "Capital?") []))))
           (str "Paris") eq_refl))).
Defined.

(** X16: the client of the GUI is always given the key under [api_key];
    it is given an organization exactly when the variable is set and not
    empty, then as it is, and a project likewise; and no other option. *)
Theorem client_kwargs_passed api_key org_id project_id :
  let kw := GuiWindow.client_kwargs api_key org_id project_id in
  kw !! "api_key" = Some api_key
  ∧ kw !! "organization" = (match org_id with Some (c :: o) => Some (c :: o) | _ => None end)
  ∧ kw !! "project" = (match project_id with Some (c :: p) => Some (c :: p) | _ => None end)
  ∧ ∀ k, is_Some (kw !! k) → k = "api_key" ∨ k = "organization" ∨ k = "project".
Proof.
  unfold GuiWindow.client_kwargs.
  destruct org_id as [[|c o]|], project_id as [[|c' p]|]; simpl;
    (repeat split; [by simplify_map_eq..|]);
    intros k; rewrite <- elem_of_dom, ?dom_insert_L, dom_singleton_L; set_solver.
Qed.

(** ** More on the polling loop *)

Lemma answered_in_later st st' q rq out :
  Cli.requests st' = Cli.requests st ++ rq → Cli.stdout st' = Cli.stdout st ++ out →
  answered_in st q → answered_in st' q.
Proof.
  intros Hrq Hout [Hin (before & answer & after & Hst)]. split.
  - rewrite Hrq. apply elem_of_app. by left.
  - exists before, answer, (after ++ out). rewrite Hout, Hst. by rewrite <- !app_assoc.
Qed.

Lemma for_body_answered e st q0 :
  (∀ q, q ∈ Cli.seen st → answered_in st q) →
  ∀ q, q ∈ Cli.seen (Cli.for_body e st q0) → answered_in (Cli.for_body e st q0) q.
Proof.
  intros Hinv q. unfold Cli.for_body.
  destruct (decide (q0 ∈ Cli.seen st)) as [|Hq0]; [apply Hinv|].
  pose proof (query_openai_requests e q0 (Cli.requests st)) as Hrq.
  destruct (Cli.query_openai e q0 (Cli.requests st)) as [[answer|msg] rq] eqn:E;
    simpl in Hrq; subst rq; simpl.
  - assert (key_missing e = false) as Hkey.
    { unfold Cli.query_openai in E. by destruct (key_missing e). }
    rewrite Hkey. intros [->%elem_of_singleton|Hq]%elem_of_union.
    + split; simpl.
      * apply elem_of_app. right. apply list_elem_of_here.
      * by exists (Cli.stdout st), answer, [].
    + by eapply answered_in_later; [..|by apply Hinv].
  - intros Hq. eapply answered_in_later; [..|by apply Hinv]; simpl.
    + by instantiate (1 := if key_missing e then [] else [q0]); destruct (key_missing e);
        rewrite ?app_nil_r.
    + done.
Qed.

Lemma main_loop_answered e once frames st :
  (∀ q, q ∈ Cli.seen st → answered_in st q) →
  ∀ q, q ∈ Cli.seen (Cli.main_loop e once frames st).2 →
       answered_in (Cli.main_loop e once frames st).2 q.
Proof.
  assert (∀ qs st, (∀ q, q ∈ Cli.seen st → answered_in st q) →
            ∀ q, q ∈ Cli.seen (fold_left (Cli.for_body e) qs st) →
                 answered_in (fold_left (Cli.for_body e) qs st) q) as Hcycle.
  { intros qs. induction qs as [|q0 qs IH]; intros st0 Hinv; simpl; [done|].
    apply IH. by apply for_body_answered. }
  revert st. induction frames as [|[txt| |msg] frames IH]; intros st Hinv; simpl; [done| | |done].
  - destruct once; simpl; [by apply Hcycle|]. apply IH. by apply Hcycle.
  - intros q Hq. eapply answered_in_later; [..|by apply Hinv]; simpl; [|done].
    by rewrite app_nil_r.
Qed.

(** X17: in every run of the polling loop, each question of the set of
    seen questions went out to the service, and the standard output has
    its announcement with an answer printed right after it. *)
Theorem seen_were_answered e once frames q :
  q ∈ Cli.seen (Cli.main e once frames).2 → answered_in (Cli.main e once frames).2 q.
Proof. apply main_loop_answered. intros q' Hq'. by apply not_elem_of_empty in Hq'. Qed.

Lemma seen_were_answered_witness :
  str "What is it?" ∈ Cli.seen (Cli.main (steady (str "A test")) false
                                  [Cli.Screen (str "What is it? Abc?")]).2
  ∧ str "What is it?" ∈ Cli.requests (Cli.main (steady (str "A test")) false
                                        [Cli.Screen (str "What is it? Abc?")]).2.
Proof.
  assert (str "What is it?" ∈ Cli.seen (Cli.main (steady (str "A test")) false
                                          [Cli.Screen (str "What is it? Abc?")]).2) as H.
  { apply (bool_decide_unpack _). by vm_compute. }
  split; [exact H|]. exact (proj1 (seen_were_answered _ _ _ _ H)).
Defined.

Lemma for_body_reliable e st q :
  reliable e →
  q ∈ Cli.seen (Cli.for_body e st q)
  ∧ Cli.seen (Cli.for_body e st q) = {[q]} ∪ Cli.seen st
  ∧ Cli.requests (Cli.for_body e st q)
    = Cli.requests st ++ (if decide (q ∈ Cli.seen st) then [] else [q]).
Proof.
  intros [Hkey Hanswers]. unfold Cli.for_body, Cli.query_openai, create. rewrite Hkey.
  destruct (decide (q ∈ Cli.seen st)) as [Hq|Hq].
  - rewrite app_nil_r. repeat split; [done|set_solver].
  - destruct (Hanswers (length (Cli.requests st)) q) as [c ->]. simpl.
    repeat split. set_solver.
Qed.

Lemma for_body_sent_once e st q : reliable e → sent_once st → sent_once (Cli.for_body e st q).
Proof.
  intros He [Hnd Hiff]. destruct (for_body_reliable e st q He) as (_ & Hseen & Hrq).
  unfold sent_once. rewrite Hseen, Hrq. destruct (decide (q ∈ Cli.seen st)) as [Hq|Hq].
  - rewrite app_nil_r. split; [done|]. intros q'. rewrite Hiff. set_solver.
  - split.
    + apply NoDup_app. split; [done|]. split; [|apply NoDup_singleton].
      intros q' Hq' ->%list_elem_of_singleton. by apply Hq, Hiff.
    + intros q'. rewrite elem_of_app, Hiff, list_elem_of_singleton. set_solver.
Qed.

Lemma main_loop_sent_once e once frames st :
  reliable e → sent_once st → sent_once (Cli.main_loop e once frames st).2.
Proof.
  intros He.
  assert (∀ qs st, sent_once st → sent_once (fold_left (Cli.for_body e) qs st)) as Hcycle.
  { intros qs. induction qs as [|q0 qs IH]; intros st0 Hinv; simpl; [done|].
    apply IH. by apply for_body_sent_once. }
  revert st. induction frames as [|[txt| |msg] frames IH]; intros st Hinv; simpl; try done.
  destruct once; simpl; [by apply Hcycle|]. apply IH. by apply Hcycle.
Qed.

(** X18: when the key is set and the service answers every request, no
    question is sent twice in a run of the polling loop, however many
    frames show it; the questions sent are those of the set of seen
    questions. *)
Theorem reliable_sent_once e once frames :
  reliable e →
  NoDup (Cli.requests (Cli.main e once frames).2)
  ∧ ∀ q, q ∈ Cli.requests (Cli.main e once frames).2 ↔ q ∈ Cli.seen (Cli.main e once frames).2.
Proof.
  intros He. apply (main_loop_sent_once e once frames); [done|].
  split; [constructor|]. intros q. simpl. set_solver.
Qed.

Lemma steady_reliable reply : reliable (steady reply).
Proof. split; [done|]. intros n q. by exists reply. Qed.

Lemma reliable_sent_once_witness :
  reliable (steady (str "A test"))
  ∧ Cli.requests (Cli.main (steady (str "A test")) false
                    [Cli.Screen (str "What is it? Who is it?"); Cli.Screen (str "What is it?");
                     Cli.Screen (str "Who is it? Which one?")]).2
    = [str "What is it?"; str "Who is it?"; str "Which one?"]
  ∧ NoDup (Cli.requests (Cli.main (steady (str "A test")) false
                    [Cli.Screen (str "What is it? Who is it?"); Cli.Screen (str "What is it?");
                     Cli.Screen (str "Who is it? Which one?")]).2).
Proof.
  split; [apply steady_reliable|]. split; [by vm_compute|].
  exact (proj1 (reliable_sent_once (steady (str "A test")) false _ (steady_reliable _))).
Defined.

Lemma fold_for_body_seen e qs st :
  (∀ q, q ∈ qs → q ∈ Cli.seen st) → fold_left (Cli.for_body e) qs st = st.
Proof.
  revert st. induction qs as [|q0 qs IH]; intros st Hall; simpl; [done|].
  unfold Cli.for_body at 2. rewrite decide_True by (apply Hall; apply list_elem_of_here).
  apply IH. intros q Hq. by apply Hall, list_elem_of_further.
Qed.

Lemma fold_for_body_reliable e qs st :
  reliable e →
  ∀ q, q ∈ qs ∨ q ∈ Cli.seen st → q ∈ Cli.seen (fold_left (Cli.for_body e) qs st).
Proof.
  intros He. revert st. induction qs as [|q0 qs IH]; intros st q; simpl.
  - intros [?%elem_of_nil|?]; done.
  - intros H. apply IH. destruct (for_body_reliable e st q0 He) as (_ & -> & _).
    set_solver.
Qed.

(** X19: when the key is set and the service answers every request, a
    second cycle over the same text changes nothing: nothing is sent and
    nothing is printed for a text that stays on the screen. *)
Theorem cycle_twice e st txt :
  reliable e → Cli.cycle e (Cli.cycle e st txt) txt = Cli.cycle e st txt.
Proof.
  intros He. unfold Cli.cycle at 1. apply fold_for_body_seen.
  intros q Hq. apply fold_for_body_reliable; [done|by left].
Qed.

Lemma cycle_twice_witness :
  reliable (steady (str "A test"))
  ∧ Cli.cycle (steady (str "A test"))
      (Cli.cycle (steady (str "A test"))
         {| Cli.seen := ∅; Cli.requests := []; Cli.stdout := [] |} (str "What is it?"))
      (str "What is it?")
    = Cli.cycle (steady (str "A test"))
        {| Cli.seen := ∅; Cli.requests := []; Cli.stdout := [] |} (str "What is it?").
Proof.
  split; [apply steady_reliable|].
  exact (cycle_twice (steady (str "A test")) _ (str "What is it?") (steady_reliable _)).
Defined.

(** ** The snap tool *)

Lemma ask_ai_requests e q rq :
  (Snap.ask_ai e q rq).2 = if key_missing e then rq else rq ++ [q].
Proof.
  unfold Snap.ask_ai, create. destruct (key_missing e); [done|].
  by destruct (service e (length rq) q).
Qed.

Lemma answer_selection_clean e show_text raw st :
  snap_requests_clean st → snap_requests_clean (Snap.answer_selection e show_text raw st).
Proof.
  intros Hinv. unfold Snap.answer_selection.
  destruct (strip raw) as [|c t] eqn:Hraw; [done|].
  assert (Snap.requests (if show_text then Snap.say st [Snap.OcrText (c :: t)] else st)
          = Snap.requests st) as Hsame by (by destruct show_text).
  pose proof (ask_ai_requests e (c :: t)
                (Snap.requests (if show_text then Snap.say st [Snap.OcrText (c :: t)] else st)))
    as Hrq.
  destruct (Snap.ask_ai e (c :: t) _) as [[answer|msg] rq]; simpl in Hrq; subst rq;
    intros q; simpl; rewrite Hsame; destruct (key_missing e); try apply Hinv;
    (intros [Hq| ->%list_elem_of_singleton]%elem_of_app; [by apply Hinv|]);
    (split; [done|]); rewrite <- Hraw; apply strip_idem.
Qed.

Lemma snap_main_loop_clean e show_text attempts st :
  snap_requests_clean st → snap_requests_clean (Snap.main_loop e show_text attempts st).
Proof.
  revert st. induction attempts as [|a attempts IH]; intros st Hinv; simpl; [done|].
  destruct (select_region (Snap.events a)) as [[b|]|]; [|done..].
  pose proof (answer_selection_clean e show_text (Snap.ocr a) st Hinv).
  case_decide; [by apply IH|done].
Qed.

Lemma snap_main_loop_blank e show_text attempts st :
  Forall (λ a, forallb Char.is_space (Snap.ocr a) = true) attempts →
  Snap.requests (Snap.main_loop e show_text attempts st) = Snap.requests st.
Proof.
  intros Hall. revert st. induction Hall as [|a attempts Ha _ IH]; intros st; simpl; [done|].
  destruct (select_region (Snap.events a)) as [[b|]|]; [|done..].
  unfold Snap.answer_selection. apply strip_nil_iff in Ha. rewrite Ha.
  case_decide; [by rewrite IH|done].
Qed.

(** X20: the snap tool never sends an empty question, and never one with
    white space at either end; a selection where OCR reads nothing but
    white space makes no request and prints that no text was detected, and
    a run in which every selection reads so sends nothing at all. *)
Theorem snap_requests_are_clean e show_text :
  (∀ attempts q,
     q ∈ Snap.requests (Snap.main e show_text attempts) → q ≠ [] ∧ strip q = q)
  ∧ (∀ raw st, forallb Char.is_space raw = true →
       Snap.answer_selection e show_text raw st = Snap.say st [Snap.NoTextDetected])
  ∧ (∀ attempts,
       Forall (λ a, forallb Char.is_space (Snap.ocr a) = true) attempts →
       Snap.requests (Snap.main e show_text attempts) = []).
Proof.
  split; [|split].
  - intros attempts. apply (snap_main_loop_clean e show_text attempts).
    intros q' Hq'. by apply elem_of_nil in Hq'.
  - intros raw st Hraw. unfold Snap.answer_selection. apply strip_nil_iff in Hraw.
    by rewrite Hraw.
  - intros attempts Hall. unfold Snap.main. by rewrite snap_main_loop_blank.
Qed.

Lemma snap_requests_are_clean_witness :
  str "Why so?" ∈ Snap.requests
      (Snap.main (steady (str "Because")) false
         [{| Snap.events := [ButtonPress 0 0; ButtonRelease 9 9];
             Snap.ocr := [Char.newline];
             Snap.choice := str " 1 " |};
          {| Snap.events := [ButtonPress 0 0; ButtonRelease 9 9];
             Snap.ocr := str " Why so? " ++ [Char.newline];
             Snap.choice := str "2" |}])
  ∧ strip (str "Why so?") = str "Why so?".
Proof.
  assert (str "Why so?" ∈ Snap.requests
      (Snap.main (steady (str "Because")) false
         [{| Snap.events := [ButtonPress 0 0; ButtonRelease 9 9];
             Snap.ocr := [Char.newline];
             Snap.choice := str " 1 " |};
          {| Snap.events := [ButtonPress 0 0; ButtonRelease 9 9];
             Snap.ocr := str " Why so? " ++ [Char.newline];
             Snap.choice := str "2" |}])) as H
    by (vm_compute; apply list_elem_of_here).
  split; [exact H|].
  exact (proj2 (proj1 (snap_requests_are_clean (steady (str "Because")) false) _ _ H)).
Defined.

(** ** The window of the GUI *)

(** X21: whatever happens in the worker of the GUI (the capture or OCR
    fails, the key is missing, the service fails, or the answer comes),
    it first disables the button and last enables it again, touches it at
    no other time, and shows one dialog; it writes the clipboard exactly
    when the answer came. *)
Theorem worker_schedule unicode_decimal e ocr rq :
  ∃ middle,
    (GuiWindow.run_ocr_and_answer unicode_decimal e ocr rq).1
    = GuiWindow.ButtonConfig false :: middle ++ [GuiWindow.ButtonConfig true]
    ∧ existsb is_button_config middle = false
    ∧ length (filter (λ a, is_dialog a = true) middle) = 1
    ∧ (existsb is_clipboard middle = true
       ↔ ∃ txt formatted answer,
           ocr = Returned txt
           ∧ (Gui.run_ocr_and_answer unicode_decimal e txt rq).1
             = Gui.Answered formatted answer).
Proof.
  unfold GuiWindow.run_ocr_and_answer. destruct ocr as [txt|msg].
  - destruct (Gui.run_ocr_and_answer unicode_decimal e txt rq)
      as [[formatted answer|msg] rq'] eqn:E.
    + eexists [_; _; _; _; _; _; _; _]. split; [reflexivity|].
      split; [reflexivity|]. split; [reflexivity|]. split; [|done].
      intros _. exists txt, formatted, answer. by rewrite E.
    + eexists [_; _; _; _]. split; [reflexivity|].
      split; [reflexivity|]. split; [reflexivity|]. split; [done|].
      intros (? & ? & ? & [= <-] & H). by rewrite E in H.
  - eexists [_; _; _]. split; [reflexivity|]. split; [reflexivity|]. split; [reflexivity|].
    split; [done|]. by intros (? & ? & ? & ? & _).
Qed.

(** X22: in the GUI, when the selection is cancelled, or ends with a
    release that no press came before, nothing is scheduled and nothing is
    sent; when it ends with a release after a press, the worker runs on
    what the screen shows in the box of the last press and the release,
    its corners in order. *)
Theorem on_select_and_answer_box unicode_decimal e screen pre rq :
  forallb pending pre = true →
  (∀ later,
     GuiWindow.on_select_and_answer unicode_decimal e screen (pre ++ Escape :: later) rq
     = Some ([], rq))
  ∧ (∀ c d later,
       GuiWindow.on_select_and_answer unicode_decimal e screen
         (pre ++ ButtonRelease c d :: later) rq
       = Some match last_press pre with
              | Some (a, b) =>
                  GuiWindow.run_ocr_and_answer unicode_decimal e
                    (screen (Z.min a c, Z.min b d, Z.max a c, Z.max b d)) rq
              | None => ([], rq)
              end).
Proof.
  intros Hpre. unfold GuiWindow.on_select_and_answer. split.
  - intros later.
    destruct (select_region_after_pending pre (Escape :: later) Hpre) as (o & (Hd & _) & ->).
    simpl. rewrite Hd. by rewrite wait_window_destroyed.
  - intros c d later.
    destruct (select_region_after_pending pre (ButtonRelease c d :: later) Hpre)
      as (o & (Hd & Hx1 & Hy1 & Hx2 & Hy2) & ->).
    simpl. rewrite Hd. rewrite wait_window_destroyed by done. simpl.
    rewrite !lookup_insert_ne, Hx1, Hy1 by done. simplify_map_eq.
    by destruct (last_press pre) as [[a b]|].
Qed.

Lemma on_select_and_answer_box_witness :
  forallb pending [ButtonPress 9 8; Motion 3 4] = true
  ∧ GuiWindow.on_select_and_answer ascii_decimal (steady (str "Paris")) (λ _, Raised (str "no display"))
      ([ButtonPress 9 8; Motion 3 4] ++ Escape :: []) []
    = Some ([], []).
Proof.
  split; [reflexivity|].
  exact (proj1 (on_select_and_answer_box ascii_decimal (steady (str "Paris"))
                  (λ _, Raised (str "no display")) [ButtonPress 9 8; Motion 3 4] [] eq_refl) []).
Defined.

(** ** The search for Tesseract *)

(** X23: the command for Tesseract is changed only on Windows and only
    when [tesseract] is not on the PATH; then it becomes the executable
    under Program Files when that file is there, else the one under
    Program Files (x86) when that file is there, and it stays as it was
    when neither is. *)
Theorem tesseract_detect nt which path_exists cmd :
  let program_files := Tesseract.candidate (str "C:\\Program Files\\Tesseract-OCR") in
  let program_files_x86 := Tesseract.candidate (str "C:\\Program Files (x86)\\Tesseract-OCR") in
  (nt = false ∨ is_Some which → Tesseract.detect nt which path_exists cmd = cmd)
  ∧ (nt = true → which = None →
     Tesseract.detect nt which path_exists cmd
     = if path_exists program_files then program_files
       else if path_exists program_files_x86 then program_files_x86
       else cmd)
  ∧ (Tesseract.detect nt which path_exists cmd = cmd
     ∨ path_exists (Tesseract.detect nt which path_exists cmd) = true)
  ∧ program_files = str "C:\\Program Files\\Tesseract-OCR\tesseract.exe".
Proof.
  intros pf pf86. unfold Tesseract.detect. split; [|split; [|split]].
  - intros [->|[w ->]]; [done|by destruct nt].
  - by intros -> ->.
  - destruct nt, which; try by left. simpl. fold pf pf86.
    destruct (path_exists pf) eqn:E1; [by right|].
    destruct (path_exists pf86) eqn:E2; [by right|by left].
  - reflexivity.
Qed.

Lemma tesseract_detect_witness :
  Tesseract.detect true None
    (λ p, bool_decide (p = str "C:\\Program Files (x86)\\Tesseract-OCR\tesseract.exe"))
    (str "tesseract")
  = str "C:\\Program Files (x86)\\Tesseract-OCR\tesseract.exe".
Proof.
  exact (proj1 (proj2 (tesseract_detect true None
    (λ p, bool_decide (p = str "C:\\Program Files (x86)\\Tesseract-OCR\tesseract.exe"))
    (str "tesseract"))) eq_refl eq_refl).
Defined.

(** ** Across the parts *)

Lemma for_body_announced e st q :
  announced (Cli.stdout (Cli.for_body e st q))
  = announced (Cli.stdout st) ++ (if decide (q ∈ Cli.seen st) then [] else [q])
  ∧ Cli.seen st ⊆ Cli.seen (Cli.for_body e st q)
  ∧ Cli.seen (Cli.for_body e st q) ⊆ {[q]} ∪ Cli.seen st.
Proof.
  unfold Cli.for_body. destruct (decide (q ∈ Cli.seen st)).
  - rewrite app_nil_r. split; [done|set_solver].
  - destruct (Cli.query_openai e q (Cli.requests st)) as [[answer|msg] rq]; simpl;
      unfold announced; rewrite omap_app; (split; [done|set_solver]).
Qed.

Lemma fold_for_body_announced e qs st :
  NoDup qs →
  announced (Cli.stdout (fold_left (Cli.for_body e) qs st))
  = announced (Cli.stdout st) ++ filter (λ q, q ∉ Cli.seen st) qs.
Proof.
  intros Hqs. revert st. induction Hqs as [|q qs Hq _ IH]; intros st; simpl.
  - by rewrite app_nil_r.
  - destruct (for_body_announced e st q) as (Hout & Hsub & Hsup).
    rewrite IH, Hout, <- app_assoc. f_equal.
    assert (filter (λ q0, q0 ∉ Cli.seen (Cli.for_body e st q)) qs
            = filter (λ q0, q0 ∉ Cli.seen st) qs) as ->.
    { apply filter_agree. intros q0 Hq0.
      assert (q0 ≠ q) by (by intros ->). set_solver. }
    rewrite filter_cons. destruct (decide (q ∈ Cli.seen st)).
    + by rewrite decide_False by (by intros []).
    + by rewrite decide_True by done.
Qed.

(** X24: whatever the key and the service, a cycle of the polling loop
    announces on the standard output the questions of the text that are
    not in the set of seen questions, each once, in the order of the
    text, and no other. *)
Theorem cycle_announces e st txt :
  announced (Cli.stdout (Cli.cycle e st txt))
  = announced (Cli.stdout st) ++ filter (λ q, q ∉ Cli.seen st) (extract_questions txt).
Proof. apply fold_for_body_announced, extract_questions_NoDup. Qed.

(** X25: on a text that is one well-formed Latin question sentence, with
    no Arabic question mark in it, the two extractors agree: each returns
    the sentence itself. *)
Theorem extractors_agree q :
  well_formed q = true → Char.arabic_qmark ∉ q →
  extract_question q = q ∧ extract_questions q = [q].
Proof.
  intros Hwf Har. split.
  - pose proof Hwf as (c & body & -> & Hc & Hlen & Hbody)%well_formed_inv.
    unfold extract_question, Re.arabic_run, Re.latin_run.
    rewrite search_absent by done.
    change (c :: body ++ [Char.qmark]) with ((c :: body) ++ [Char.qmark]) at 1.
    rewrite search_at_start.
    + by apply well_formed_strip.
    + apply not_elem_of_cons. split; [|done]. intros E. by apply (upper_not_qmark c).
    + simpl. lia.
  - unfold extract_questions. rewrite <- (app_nil_r q) at 1.
    rewrite findall_sentence by done. unfold Re.findall. simpl.
    by rewrite well_formed_strip by done.
Qed.

Lemma extractors_agree_witness :
  well_formed (str "What is the capital of France?") = true
  ∧ Char.arabic_qmark ∉ str "What is the capital of France?"
  ∧ extract_question (str "What is the capital of France?")
    = str "What is the capital of France?".
Proof.
  assert (Char.arabic_qmark ∉ str "What is the capital of France?") as H
    by (apply (bool_decide_unpack _); by vm_compute).
  split; [reflexivity|]. split; [exact H|].
  exact (proj1 (extractors_agree (str "What is the capital of France?") eq_refl H)).
Defined.

Lemma format_answer_has_prefix unicode_decimal txt answer :
  ∃ before after,
    format_answer unicode_decimal txt answer = before ++ rstrip (prefix_for txt) ++ after.
Proof.
  unfold format_answer. fold (prefix_for txt).
  destruct (match numeric_answer unicode_decimal answer with
            | Some groups => groups | None => ([], answer) end) as [num_part ans_main].
  destruct (prefix_for_core txt) as (c & mid & d & -> & -> & Hc & Hd).
  destruct (strip_around (num_part ++ [Char.space]) c mid d (Char.space :: ans_main) Hc Hd)
    as (s' & t' & H).
  exists s', t'. rewrite <- H. f_equal. by rewrite <- !app_assoc.
Qed.

(** X26: for a text that has a run for the Arabic question mark, the
    question [extract_question] returns ends with that mark, and the
    formatted answer holds the Arabic prefix, up to its colon, whatever
    the answer and its script; so does the formatted answer the GUI worker
    shows for that text. *)
Theorem arabic_question_arabic_prefix txt :
  has_run Char.arabic_qmark txt →
  (∃ body, extract_question txt = body ++ [Char.arabic_qmark])
  ∧ (∀ unicode_decimal answer,
       ∃ before after,
         format_answer unicode_decimal txt answer = before ++ rstrip arabic_prefix ++ after)
  ∧ (∀ unicode_decimal e rq formatted answer,
       (Gui.run_ocr_and_answer unicode_decimal e txt rq).1 = Gui.Answered formatted answer →
       ∃ before after, formatted = before ++ rstrip arabic_prefix ++ after).
Proof.
  intros Hrun.
  assert (prefix_for txt = arabic_prefix) as Hprefix.
  { destruct Hrun as (n & m & (pre & post & -> & _) & (run & -> & _)).
    unfold prefix_for. replace (is_arabic _) with true; [done|].
    symmetry. apply is_arabic_iff. exists Char.arabic_qmark. split; [|done].
    rewrite !elem_of_app. right. left. right. apply list_elem_of_here. }
  split; [|split].
  - unfold extract_question, Re.arabic_run.
    destruct (Re.search (Re.run_until Char.arabic_qmark 2) txt) as [m|] eqn:E.
    + apply search_first_run in E as (_ & _ & (run & -> & _ & _) & _).
      exists (lstrip run). by apply strip_snoc_keep.
    + by apply search_no_run in E.
  - intros ud answer. destruct (format_answer_has_prefix ud txt answer) as (b & a & H).
    rewrite Hprefix in H. by exists b, a.
  - intros ud e rq formatted answer. unfold Gui.run_ocr_and_answer.
    destruct (Gui.query_openai e (extract_question txt) rq) as [[a|msg] rq']; [|done].
    simpl. intros [= <- _]. destruct (format_answer_has_prefix ud txt a) as (b & a' & H).
    rewrite Hprefix in H. by exists b, a'.
Qed.

Lemma arabic_question_arabic_prefix_witness :
  has_run Char.arabic_qmark (str "Who? " ++ [0x645; 0x646; 0x61F]%Z)
  ∧ ∃ before after,
      format_answer ascii_decimal (str "Who? " ++ [0x645; 0x646; 0x61F]%Z) (str "42 ok")
      = before ++ rstrip arabic_prefix ++ after.
Proof.
  assert (has_run Char.arabic_qmark (str "Who? " ++ [0x645; 0x646; 0x61F]%Z)) as H.
  { exists 0, (str "Who? " ++ [0x645; 0x646; 0x61F]%Z). split; [by exists [], []|].
    exists (str "Who? " ++ [0x645; 0x646]%Z). split; [done|]. split; [vm_compute; lia|].
    apply (bool_decide_unpack _). by vm_compute. }
  split; [exact H|].
  exact (proj1 (proj2 (arabic_question_arabic_prefix _ H)) ascii_decimal (str "42 ok")).
Defined.

(** ** The answer formatter, whole *)

Lemma format_answer_around txt num_part ans_main :
  ∃ after,
    rstrip (num_part ++ [Char.space] ++ prefix_for txt ++ ans_main)
    = (num_part ++ [Char.space]) ++ rstrip (prefix_for txt) ++ after.
Proof.
  destruct (prefix_for_core txt) as (c & mid & d & -> & -> & Hc & Hd).
  replace (num_part ++ [Char.space] ++ ((c :: mid ++ [d]) ++ [Char.space]) ++ ans_main)
    with (((num_part ++ [Char.space]) ++ c :: mid) ++ d :: Char.space :: ans_main)
    by (by rewrite <- !app_assoc; simpl; rewrite <- !app_assoc).
  destruct (rstrip_after ((num_part ++ [Char.space]) ++ c :: mid) d
              (Char.space :: ans_main) Hd) as [after ->].
  exists after. rewrite <- !app_assoc. simpl. by rewrite <- !app_assoc.
Qed.

Section FormatterWhole.

Variable unicode_decimal : Z → bool.
Hypothesis decimal_not_space : ∀ c, unicode_decimal c = true → Char.is_space c = false.
Hypothesis decimal_not_percent : ∀ c, unicode_decimal c = true → Char.is_percent c = false.

(** C4, as amended: the prefix is the Arabic one exactly when the OCR text
    has a character of the Arabic block, whatever the answer, and for
    every text and answer the output is trimmed and holds that prefix, up
    to its colon, at its start or right after the numeric token and a
    space.  When the answer begins with a numeric token (decimal digits,
    the ASCII and Arabic-Indic ones among them, and at most one percent
    sign of either script) and white space, the output is the token, a
    space, the prefix and the first line of what follows that white space
    (all of it when it has no line feed), with white space at the end
    removed.  When the answer does not begin so, the output is the prefix
    and the answer, with white space at the end removed.  For a non-empty
    answer that is itself trimmed nothing is removed. *)
Theorem format_answer_spec txt answer :
  ((prefix_for txt = arabic_prefix ∧ ∃ ch, ch ∈ txt ∧ (0x600 ≤ ch ≤ 0x6FF)%Z)
   ∨ (prefix_for txt = latin_prefix ∧ ¬ ∃ ch, ch ∈ txt ∧ (0x600 ≤ ch ≤ 0x6FF)%Z))
  ∧ (∀ tok pct ws body,
       numeric_lead unicode_decimal answer tok pct ws body →
       lstrip body = body → Char.newline ∉ body →
       format_answer unicode_decimal txt answer
       = rstrip ((tok ++ pct) ++ [Char.space] ++ prefix_for txt ++ body)
       ∧ (body ≠ [] → strip answer = answer →
          format_answer unicode_decimal txt answer
          = (tok ++ pct) ++ [Char.space] ++ prefix_for txt ++ body))
  ∧ ((¬ ∃ tok pct ws rest, numeric_lead unicode_decimal answer tok pct ws rest) →
     format_answer unicode_decimal txt answer = rstrip (prefix_for txt ++ answer)
     ∧ (answer ≠ [] → strip answer = answer →
        format_answer unicode_decimal txt answer = prefix_for txt ++ answer))
  ∧ strip (format_answer unicode_decimal txt answer) = format_answer unicode_decimal txt answer
  ∧ (∃ before after,
       format_answer unicode_decimal txt answer = before ++ rstrip (prefix_for txt) ++ after
       ∧ (before = []
          ∨ ∃ tok pct ws rest, numeric_lead unicode_decimal answer tok pct ws rest
                               ∧ before = (tok ++ pct) ++ [Char.space]))
  ∧ (∀ tok pct ws body,
       numeric_lead unicode_decimal answer tok pct ws body → lstrip body = body →
       format_answer unicode_decimal txt answer
       = rstrip ((tok ++ pct) ++ [Char.space] ++ prefix_for txt ++ rest_of_line body)).
Proof.
  assert (∀ tok pct ws body,
       numeric_lead unicode_decimal answer tok pct ws body → lstrip body = body →
       format_answer unicode_decimal txt answer
       = rstrip ((tok ++ pct) ++ [Char.space] ++ prefix_for txt ++ rest_of_line body)) as Hline.
  { intros tok pct ws body Hlead Hbody.
    pose proof Hlead as (-> & Htok & Hdig & _).
    destruct tok as [|d tok]; [done|].
    assert (Char.is_space d = false) as Hd.
    { simpl in Hdig. apply andb_prop in Hdig as [Hd _].
      by apply (digit_not_space unicode_decimal decimal_not_space). }
    apply (format_answer_numeric unicode_decimal txt _ ((d :: tok) ++ pct) _ d (tok ++ pct));
      try done.
    unfold numeric_answer.
    by rewrite (digits_then_first_line unicode_decimal decimal_not_space decimal_not_percent
                  [] (d :: tok) pct ws body). }
  assert ((¬ ∃ tok pct ws rest, numeric_lead unicode_decimal answer tok pct ws rest) →
          numeric_answer unicode_decimal answer = None) as Hnone.
  { intros Hno. unfold numeric_answer.
    destruct (digits_then unicode_decimal [] answer) as [[g1 g2]|] eqn:E; [|done].
    apply digits_then_Some in E as (tok & pct & ws & rest & H & _).
    exfalso. apply Hno. by exists tok, pct, ws, rest. }
  repeat apply conj.
  - unfold prefix_for. destruct (is_arabic txt) eqn:E.
    + left. split; [done|]. by apply is_arabic_iff.
    + right. split; [done|]. intros H%is_arabic_iff. congruence.
  - intros tok pct ws body Hlead Hbody Hnl.
    rewrite (Hline tok pct ws body) by done. rewrite rest_of_line_id by done.
    split; [done|]. intros Hne Hstrip.
    destruct Hlead as (-> & _). destruct (exists_last Hne) as (body' & z & ->).
    assert (Char.is_space z = false) as Hz.
    { eapply (strip_last _ (tok ++ pct ++ ws ++ body')); [exact Hstrip|].
      by rewrite <- !app_assoc. }
    rewrite !app_assoc. rewrite rstrip_snoc_keep by done. by rewrite <- !app_assoc.
  - intros Hno. rewrite format_answer_plain by (by apply Hnone). split; [done|].
    intros Hne Hstrip. destruct (exists_last Hne) as (answer' & z & ->).
    rewrite app_assoc. apply rstrip_snoc_keep. by eapply strip_last.
  - unfold format_answer.
    destruct (match numeric_answer unicode_decimal answer with
              | Some groups => groups | None => ([], answer) end) as [num_part ans_main].
    apply strip_idem.
  - destruct (numeric_answer unicode_decimal answer) as [[g1 g2]|] eqn:E.
    + pose proof E as E'. unfold numeric_answer in E'.
      apply digits_then_Some in E' as (tok & pct & ws & rest & Hlead & Hg1).
      simpl in Hg1. subst g1.
      pose proof Hlead as (_ & Htok & Hdig & _).
      destruct tok as [|d tok]; [done|].
      assert (Char.is_space d = false) as Hd.
      { simpl in Hdig. apply andb_prop in Hdig as [Hd _].
        by apply (digit_not_space unicode_decimal decimal_not_space). }
      rewrite (format_answer_numeric unicode_decimal txt answer _ g2 d (tok ++ pct) E)
        by done.
      destruct (format_answer_around txt ((d :: tok) ++ pct) g2) as [after ->].
      exists (((d :: tok) ++ pct) ++ [Char.space]), after. split; [done|].
      right. by exists (d :: tok), pct, ws, rest.
    + rewrite format_answer_plain by done.
      destruct (prefix_for_core txt) as (c & mid & d & Hp & Hcore & Hc & Hd).
      rewrite Hcore, Hp.
      replace (((c :: mid ++ [d]) ++ [Char.space]) ++ answer)
        with ((c :: mid) ++ d :: Char.space :: answer)
        by (by simpl; rewrite <- !app_assoc).
      destruct (rstrip_after (c :: mid) d (Char.space :: answer) Hd) as [after ->].
      exists [], after. split; [|by left]. simpl. by rewrite <- app_assoc.
  - exact Hline.
Qed.

End FormatterWhole.

Lemma format_answer_spec_witness :
  (∀ c, ascii_decimal c = true → Char.is_space c = false)
  ∧ (∀ c, ascii_decimal c = true → Char.is_percent c = false)
  ∧ numeric_lead ascii_decimal (str "42% of respondents agreed")
      (str "42") (str "%") (str " ") (str "of respondents agreed")
  ∧ format_answer ascii_decimal (str "How many agreed?") (str "42% of respondents agreed")
    = str "42% Answer: of respondents agreed".
Proof.
  assert (∀ c, ascii_decimal c = true → Char.is_space c = false) as Hsp
    by (intros c; unfold ascii_decimal, Char.is_space; lia).
  assert (∀ c, ascii_decimal c = true → Char.is_percent c = false) as Hpct
    by (intros c; unfold ascii_decimal, Char.is_percent, Char.percent, Char.arabic_percent; lia).
  assert (numeric_lead ascii_decimal (str "42% of respondents agreed")
            (str "42") (str "%") (str " ") (str "of respondents agreed")) as Hlead
    by (repeat split; try done; right; by left).
  assert (Char.newline ∉ str "of respondents agreed") as Hnl
    by (apply (bool_decide_unpack _); by vm_compute).
  split; [exact Hsp|]. split; [exact Hpct|]. split; [exact Hlead|].
  exact (proj1 (proj1 (proj2 (format_answer_spec ascii_decimal Hsp Hpct
                                (str "How many agreed?") (str "42% of respondents agreed")))
                  _ _ _ _ Hlead eq_refl Hnl)).
Defined.

(** C4, as stated, fails: the output is trimmed, so for an empty answer it
    is the prefix without its last space, not the prefix and the answer. *)
Lemma format_answer_empty_answer :
  format_answer ascii_decimal (str "What is it?") [] = str "Answer:"
  ∧ prefix_for (str "What is it?") ++ [] = str "Answer: "
  ∧ ¬ (∀ unicode_decimal txt answer,
         (¬ ∃ tok pct ws rest, numeric_lead unicode_decimal answer tok pct ws rest) →
         format_answer unicode_decimal txt answer = prefix_for txt ++ answer).
Proof.
  split; [reflexivity|]. split; [reflexivity|]. intros H.
  specialize (H ascii_decimal (str "What is it?") []).
  assert (format_answer ascii_decimal (str "What is it?") []
          ≠ prefix_for (str "What is it?") ++ []) as Hne by done.
  apply Hne, H. intros (tok & pct & ws & rest & Heq & Htok & _).
  by destruct tok.
Qed.

(** The second group of the pattern ends at the first line feed: of an
    answer of several lines that begins with a numeric token, only the
    first line is kept. *)
Example format_answer_later_lines :
  format_answer ascii_decimal (str "How many?") (str "42 of them" ++ [Char.newline] ++ str "or so")
  = str "42 Answer: of them".
Proof. reflexivity. Qed.
